(** * Face interpolation of the SOFC control-volume sub-models

    A shallow embedding of [_interpolate_channel] and [_interpolate_2D] from
    [idaes/power_generation/unit_models/sofc_submodels.py], together with the
    axis construction done in the [build] methods of the sub-models.

    Modelling conventions.
    - Coordinates and node values are exact rationals ([Q]).  What a routine
      returns is stated as the rational term it builds; numerical values of
      such terms are compared with [Qeq] (written [==]).  All numbers of
      the scenarios are dyadic, so binary floating point computes them
      without rounding.
    - Equalities and bounds between numerical values are those of exact
      arithmetic.  The module [Binary64] repeats the axis construction and
      the two routines in IEEE double precision, the numbers Python
      computes with, for the places where rounding changes an answer.
    - Python exceptions are the [Raise] results of the error monad [res];
      the order of the binds is the evaluation order of the Python code.
      The node-value accessor [phi_func] is a caller's function and may
      raise as well.
    - A Pyomo ordered [Set] is a list; [Set_at] is its 1-based [at] lookup,
      which accepts negative positions counted from the end and raises
      [IndexError] otherwise; [first()] and [last()] raise [IndexError] on
      an empty set. *)

From Stdlib Require Import ZArith QArith Qabs Qminmax List Sorted String Bool.
From Stdlib Require Import Lia Lqa.
From Stdlib Require Import Floats.PrimFloat.
Import ListNotations.

Local Open Scope Z_scope.

(** ** Exceptions and the error monad *)

Inductive exn : Type :=
| IndexError
| ZeroDivisionError
| RuntimeError (msg : string).

Inductive res (A : Type) : Type :=
| Ok (a : A)
| Raise (e : exn).

Arguments Ok {A} a.
Arguments Raise {A} e.

Definition bind {A B : Type} (c : res A) (k : A -> res B) : res B :=
  match c with
  | Ok a => k a
  | Raise e => Raise e
  end.

Definition ret {A : Type} (a : A) : res A := Ok a.

Declare Scope res_scope.
Delimit Scope res_scope with res.
Notation "x <- c ;; k" := (bind c (fun x => k))
  (at level 61, c at next level, right associativity) : res_scope.
Local Open Scope res_scope.

(** ** The enumerations of the module *)

Module CV_Direction.
Inductive t : Type := Z | X | Y.
End CV_Direction.

Inductive CV_Bound : Type := EXTRAPOLATE.

Inductive CV_Interpolation : Type :=
| UDS    (* upwind difference scheme *)
| CDS    (* linear interpolation from upstream and downstream node centers *)
| QUICK. (* quadratic upwind interpolation *)

Definition CV_Interpolation_eqb (a b : CV_Interpolation) : bool :=
  match a, b with
  | UDS, UDS | CDS, CDS | QUICK, QUICK => true
  | _, _ => false
  end.

(** The member names of the enumeration. *)
Definition CV_Interpolation_name (m : CV_Interpolation) : string :=
  match m with
  | UDS => "UDS"
  | CDS => "CDS"
  | QUICK => "QUICK"
  end.

(** A boundary argument of [_interpolate_2D]: either some expression, or a
    member of [CV_Bound]; [isinstance(phi_bound, CV_Bound)] tells them apart. *)
Inductive bound : Type :=
| Literal (v : Q)
| Sentinel (b : CV_Bound).

(** What [_interpolate_channel] hands back: an expression, or Python's
    [None] when the body runs off its end. *)
Inductive value : Type :=
| Expr (q : Q)
| PyNone.

(** ** Pyomo ordered sets *)

Section OrderedSet.
Context {A : Type}.

Definition Set_len (s : list A) : Z := Z.of_nat (List.length s).

Definition Set_nth (s : list A) (k : Z) : res A :=
  match nth_error s (Z.to_nat k) with
  | Some x => Ok x
  | None => Raise IndexError
  end.

(** [s.at(i)]: positions 1..len, or -len..-1 from the end. *)
Definition Set_at (s : list A) (i : Z) : res A :=
  if 1 <=? i then Set_nth s (i - 1)
  else if i <? 0 then
    (if i + Set_len s <? 0 then Raise IndexError
     else Set_nth s (i + Set_len s))
  else Raise IndexError.

Definition Set_first (s : list A) : res A := Set_at s 1.
Definition Set_last (s : list A) : res A := Set_at s (Set_len s).
End OrderedSet.

(** [Set(initialize=l)] keeps the first occurrence of every member, in
    insertion order. *)
Fixpoint Set_init_aux (seen : list Q) (l : list Q) : list Q :=
  match l with
  | [] => []
  | x :: t =>
      if existsb (Qeq_bool x) seen then Set_init_aux seen t
      else x :: Set_init_aux (x :: seen) t
  end.

Definition Set_init (l : list Q) : list Q := Set_init_aux [] l.

(** ** Arithmetic *)

Local Open Scope Q_scope.

(** Python's true division on numbers. *)
Definition pydiv (a b : Q) : res Q :=
  if Qeq_bool b 0 then Raise ZeroDivisionError else Ok (a / b).

(** ** Axis construction, as in the [build] methods

    [zfaces = Set(cv_zfaces)], [znodes] the midpoints of consecutive faces,
    [izfaces = Set(range(1, len(zfaces) + 1))]. *)

Fixpoint midpoints (fs : list Q) : list Q :=
  match fs with
  | a :: (b :: _) as t => ((a + b) / 2) :: midpoints t
  | _ => []
  end.

Definition index_range (n : nat) : list Z := map Z.of_nat (seq 1 n).

Definition zfaces (cv_zfaces : list Q) : list Q := Set_init cv_zfaces.
Definition znodes (cv_zfaces : list Q) : list Q :=
  Set_init (midpoints (zfaces cv_zfaces)).
Definition izfaces (cv_zfaces : list Q) : list Z :=
  index_range (List.length (zfaces cv_zfaces)).
Definition iznodes (cv_zfaces : list Q) : list Z :=
  index_range (List.length (znodes cv_zfaces)).

(** ** [_interpolate_channel]

    The three node indices are set first; the two inlet tests come before
    the dispatch on the scheme, which has a branch for UDS and one for CDS
    and nothing after them. *)

Definition _interpolate_channel
    (iz : Z) (ifaces : list Z) (nodes faces : list Q)
    (phi_func : Z -> res Q) (phi_inlet : Q)
    (method : CV_Interpolation) (oposite_flow : bool) : res value :=
  let '(izu, izuu, izd) :=
    if negb oposite_flow then (iz - 1, iz - 2, iz)%Z
    else (iz, iz + 1, iz - 1)%Z in
  f0 <- Set_first ifaces ;;
  if (iz =? f0)%Z && negb oposite_flow then ret (Expr phi_inlet) else
  l0 <- Set_last ifaces ;;
  if (iz =? l0)%Z && oposite_flow then ret (Expr phi_inlet) else
  match method with
  | UDS =>
      v <- phi_func izu ;;
      ret (Expr v)
  | CDS =>
      zu <- Set_at nodes izu ;;
      at_outlet <-
        (if oposite_flow
         then (f <- Set_first ifaces ;; ret (iz =? f)%Z)
         else (l <- Set_last ifaces ;; ret (iz =? l)%Z)) ;;
      let izd := if at_outlet : bool then izuu else izd in
      zd <- Set_at nodes izd ;;
      zf <- Set_at faces iz ;;
      lambf <- pydiv (zd - zf) (zd - zu) ;;
      pu <- phi_func izu ;;
      pd <- phi_func izd ;;
      ret (Expr ((1 - lambf) * pu + lambf * pd))
  | QUICK => ret PyNone
  end.

(** ** [_interpolate_2D]

    The scheme is checked first.  Each of the two boundary tests either
    returns the bound, when it is not a [CV_Bound] member, or moves one of
    the reference nodes. *)

Definition only_CDS_message : string :=
  "SOFC/SOEC sections modeled in 2D do not have bulk flow, so currently only CDS interpolation is supported".

Definition _interpolate_2D
    (ic : Z) (ifaces : list Z) (nodes faces : list Q)
    (phi_func : Z -> res Q) (phi_bound_0 phi_bound_1 : bound)
    (derivative : bool) (method : CV_Interpolation)
    (direction : CV_Direction.t) : res Q :=
  if negb (CV_Interpolation_eqb method CDS)
  then Raise (RuntimeError only_CDS_message) else
  let icu := (ic - 1)%Z in
  let icd := ic in
  f0 <- Set_first ifaces ;;
  match (ic =? f0)%Z, phi_bound_0 with
  | true, Literal v => ret v
  | at_first, _ =>
      let icu := if at_first then (ic + 1)%Z else icu in
      l0 <- Set_last ifaces ;;
      match (ic =? l0)%Z, phi_bound_1 with
      | true, Literal v => ret v
      | at_last, _ =>
          let icd := if at_last then (ic - 2)%Z else icd in
          cu <- Set_at nodes icu ;;
          cd <- Set_at nodes icd ;;
          if negb derivative then
            cf <- Set_at faces ic ;;
            lambf <- pydiv (cd - cf) (cd - cu) ;;
            pu <- phi_func icu ;;
            pd <- phi_func icd ;;
            ret ((1 - lambf) * pu + lambf * pd)
          else
            pd <- phi_func icd ;;
            pu <- phi_func icu ;;
            pydiv (pd - pu) (cd - cu)
      end
  end.

(** ** Reading results *)

(** The routine returned a number equal to [q]. *)
Definition returns_num (r : res Q) (q : Q) : Prop :=
  exists v, r = Ok v /\ v == q.

Definition returns_expr (r : res value) (q : Q) : Prop :=
  exists v, r = Ok (Expr v) /\ v == q.

(** A node-value accessor reading a list of node values, 1-based, as
    indexing a Pyomo variable by node index does. *)
Definition phi_of (vals : list Q) (i : Z) : res Q :=
  if (1 <=? i)%Z then Set_nth vals (i - 1) else Raise IndexError.

(** The uniform axis of the scenarios: faces 0, 0.25, 0.5, 0.75, 1. *)
Definition uniform_faces : list Q := [0; 1 # 4; 1 # 2; 3 # 4; 1].

(** ** Upstream and downstream nodes of a face

    The assignments at the head of [_interpolate_channel]: for positive flow
    the upstream node of face [iz] is [iz - 1] and the downstream node is
    [iz]; for negative flow they are exchanged. *)

Definition upstream (oposite_flow : bool) (iz : Z) : Z :=
  if oposite_flow then iz else (iz - 1)%Z.

Definition downstream (oposite_flow : bool) (iz : Z) : Z :=
  if oposite_flow then (iz - 1)%Z else iz.

Definition two_upstream (oposite_flow : bool) (iz : Z) : Z :=
  if oposite_flow then (iz + 1)%Z else (iz - 2)%Z.

(** The inlet face is the first face for positive flow and the last face for
    negative flow; the outlet face is the other end. *)
Definition inlet_face (oposite_flow : bool) (ifaces : list Z) : res Z :=
  if oposite_flow then Set_last ifaces else Set_first ifaces.

Definition outlet_face (oposite_flow : bool) (ifaces : list Z) : res Z :=
  if oposite_flow then Set_first ifaces else Set_last ifaces.

(** The weight and the face value computed by the CDS branches. *)
Definition lambf_of (zu zd zf : Q) : Q := (zd - zf) / (zd - zu).

Definition cds_value (zu zd zf pu pd : Q) : Q :=
  (1 - lambf_of zu zd zf) * pu + lambf_of zu zd zf * pd.

(** ** The closing part of [_interpolate_2D] and its reference nodes *)

(** The closing part of [_interpolate_2D], for a given pair of reference
    nodes [icu], [icd]: the interpolated value, or the slope. *)
Definition cds_from_window
    (nodes faces : list Q) (phi_func : Z -> res Q) (derivative : bool)
    (ic icu icd : Z) : res Q :=
  cu <- Set_at nodes icu ;;
  cd <- Set_at nodes icd ;;
  if negb derivative then
    cf <- Set_at faces ic ;;
    lambf <- pydiv (cd - cf) (cd - cu) ;;
    pu <- phi_func icu ;;
    pd <- phi_func icd ;;
    ret ((1 - lambf) * pu + lambf * pd)
  else
    pd <- phi_func icd ;;
    pu <- phi_func icu ;;
    pydiv (pd - pu) (cd - cu).

(** The reference nodes [(icu, icd)] of face [ic]: [(ic - 1, ic)] at a face
    that is neither first nor last, [(ic + 1, ic)] at the first face when the
    low bound is a [CV_Bound] member, [(ic - 1, ic - 2)] at the last face
    when the high bound is one, and [(ic + 1, ic - 2)] when the face is both
    first and last and both bounds are [CV_Bound] members. *)
Inductive window2D (ifaces : list Z) (b0 b1 : bound) (ic : Z) :
    Z -> Z -> Prop :=
| window_interior :
    ifaces <> [] ->
    Set_first ifaces <> Ok ic ->
    Set_last ifaces <> Ok ic ->
    window2D ifaces b0 b1 ic (ic - 1) ic
| window_first (s : CV_Bound) :
    Set_first ifaces = Ok ic ->
    Set_last ifaces <> Ok ic ->
    b0 = Sentinel s ->
    window2D ifaces b0 b1 ic (ic + 1) ic
| window_last (s : CV_Bound) :
    Set_last ifaces = Ok ic ->
    Set_first ifaces <> Ok ic ->
    b1 = Sentinel s ->
    window2D ifaces b0 b1 ic (ic - 1) (ic - 2)
| window_both (s0 s1 : CV_Bound) :
    Set_first ifaces = Ok ic ->
    Set_last ifaces = Ok ic ->
    b0 = Sentinel s0 ->
    b1 = Sentinel s1 ->
    window2D ifaces b0 b1 ic (ic + 1) (ic - 2).

(** ** Error messages and scheme names *)

(** Whether [name] occurs in [msg]. *)
Definition mentions (msg name : string) : bool :=
  match index 0 name msg with
  | Some _ => true
  | None => false
  end.

(** The names a scheme goes by: its member name in [CV_Interpolation] and
    the term of the specification. *)
Definition scheme_names (m : CV_Interpolation) : list string :=
  match m with
  | UDS => ["UDS"; "UPWIND"]
  | CDS => ["CDS"; "CENTRAL"]
  | QUICK => ["QUICK"; "QUADRATIC-UPWIND"]
  end%string.

Definition identifies_scheme (msg : string) (m : CV_Interpolation) : bool :=
  existsb (mentions msg) (scheme_names m).

(** ** Vocabulary of the statements about the CDS value *)

(** From the words of the specification: the linear interpolation of the two
    node values, each weighted by the inverse of the distance from the face
    to its node. *)
Definition inverse_distance_interpolation (zu zd zf pu pd : Q) : Q :=
  (pu / Qabs (zf - zu) + pd / Qabs (zd - zf))
  / (1 / Qabs (zf - zu) + 1 / Qabs (zd - zf)).

(** The value at [zf] of the straight line through [(zu, pu)] and
    [(zd, pd)]: what linear interpolation becomes at a face outside the two
    nodes. *)
Definition linear_extrapolation (zu zd zf pu pd : Q) : Q :=
  pu + (pd - pu) * ((zf - zu) / (zd - zu)).

(** A non-uniform axis: faces 0, 0.25, 1; nodes at 0.125 and 0.625. *)
Definition stretched_faces : list Q := [0; 1 # 4; 1].

(** [lam] and [1 - lam] are weights of a convex combination [v] of [a] and
    [b]. *)
Definition convex_weighting (lam a b v : Q) : Prop :=
  (1 - lam) + lam == 1
  /\ 0 <= lam /\ lam <= 1
  /\ v = (1 - lam) * a + lam * b
  /\ Qmin a b <= v /\ v <= Qmax a b.

(** ** Axes built from increasing faces *)

Definition increasing (fs : list Q) : Prop := StronglySorted Qlt fs.

(** ** The routines in IEEE binary64

    Python computes the coordinates, the weight and the face value in double
    precision.  The definitions below repeat the axis construction and the
    two routines with the binary64 numbers of [PrimFloat] in the place of
    [Q]: the same lookups and the same operations in the same order, each
    operation rounded as the hardware rounds it.  Set membership and the
    test of the divisor use the equality of the numbers ([0.0 == -0.0]). *)

Module Binary64.

Local Open Scope float_scope.

Inductive bound : Type :=
| Literal (v : float)
| Sentinel (b : CV_Bound).

Inductive value : Type :=
| Expr (x : float)
| PyNone.

Fixpoint Set_init_aux (seen : list float) (l : list float) : list float :=
  match l with
  | [] => []
  | x :: t =>
      if existsb (PrimFloat.eqb x) seen then Set_init_aux seen t
      else x :: Set_init_aux (x :: seen) t
  end.

Definition Set_init (l : list float) : list float := Set_init_aux [] l.

Definition pydiv (a b : float) : res float :=
  if (b =? 0) then Raise ZeroDivisionError else Ok (a / b).

Fixpoint midpoints (fs : list float) : list float :=
  match fs with
  | a :: (b :: _) as t => ((a + b) / 2) :: midpoints t
  | _ => []
  end.

Definition zfaces (cv_zfaces : list float) : list float :=
  Set_init cv_zfaces.
Definition znodes (cv_zfaces : list float) : list float :=
  Set_init (midpoints (zfaces cv_zfaces)).
Definition izfaces (cv_zfaces : list float) : list Z :=
  index_range (List.length (zfaces cv_zfaces)).
Definition iznodes (cv_zfaces : list float) : list Z :=
  index_range (List.length (znodes cv_zfaces)).

Definition phi_of (vals : list float) (i : Z) : res float :=
  if (1 <=? i)%Z then Set_nth vals (i - 1) else Raise IndexError.

Definition _interpolate_channel
    (iz : Z) (ifaces : list Z) (nodes faces : list float)
    (phi_func : Z -> res float) (phi_inlet : float)
    (method : CV_Interpolation) (oposite_flow : bool) : res value :=
  let '(izu, izuu, izd) :=
    if negb oposite_flow then (iz - 1, iz - 2, iz)%Z
    else (iz, iz + 1, iz - 1)%Z in
  f0 <- Set_first ifaces ;;
  if (iz =? f0)%Z && negb oposite_flow then ret (Expr phi_inlet) else
  l0 <- Set_last ifaces ;;
  if (iz =? l0)%Z && oposite_flow then ret (Expr phi_inlet) else
  match method with
  | UDS =>
      v <- phi_func izu ;;
      ret (Expr v)
  | CDS =>
      zu <- Set_at nodes izu ;;
      at_outlet <-
        (if oposite_flow
         then (f <- Set_first ifaces ;; ret (iz =? f)%Z)
         else (l <- Set_last ifaces ;; ret (iz =? l)%Z)) ;;
      let izd := if at_outlet : bool then izuu else izd in
      zd <- Set_at nodes izd ;;
      zf <- Set_at faces iz ;;
      lambf <- pydiv (zd - zf) (zd - zu) ;;
      pu <- phi_func izu ;;
      pd <- phi_func izd ;;
      ret (Expr ((1 - lambf) * pu + lambf * pd))
  | QUICK => ret PyNone
  end.

Definition _interpolate_2D
    (ic : Z) (ifaces : list Z) (nodes faces : list float)
    (phi_func : Z -> res float) (phi_bound_0 phi_bound_1 : bound)
    (derivative : bool) (method : CV_Interpolation)
    (direction : CV_Direction.t) : res float :=
  if negb (CV_Interpolation_eqb method CDS)
  then Raise (RuntimeError only_CDS_message) else
  let icu := (ic - 1)%Z in
  let icd := ic in
  f0 <- Set_first ifaces ;;
  match (ic =? f0)%Z, phi_bound_0 with
  | true, Literal v => ret v
  | at_first, _ =>
      let icu := if at_first then (ic + 1)%Z else icu in
      l0 <- Set_last ifaces ;;
      match (ic =? l0)%Z, phi_bound_1 with
      | true, Literal v => ret v
      | at_last, _ =>
          let icd := if at_last then (ic - 2)%Z else icd in
          cu <- Set_at nodes icu ;;
          cd <- Set_at nodes icd ;;
          if negb derivative then
            cf <- Set_at faces ic ;;
            lambf <- pydiv (cd - cf) (cd - cu) ;;
            pu <- phi_func icu ;;
            pd <- phi_func icd ;;
            ret ((1 - lambf) * pu + lambf * pd)
          else
            pd <- phi_func icd ;;
            pu <- phi_func icu ;;
            pydiv (pd - pu) (cd - cu)
      end
  end.

(** An axis with cells of sizes 2 and 1: faces 0, 2, 3; nodes at 1 and
    2.5. *)
Definition uneven_faces : list float := [0; 2; 3].

End Binary64.

(** ** Cell sizes (rule of the [build] methods)

    [dz(b, iz) = b.zfaces.at(iz + 1) - b.zfaces.at(iz)], the same rule in
    the channel, the electrode and the electrolyte. *)

Definition dz (zfaces : list Q) (iz : Z) : res Q :=
  hi <- Set_at zfaces (iz + 1) ;;
  lo <- Set_at zfaces iz ;;
  ret (hi - lo).

(** ** Outlet of the channel

    [izfout] and [iznout] are the first face and node for negative flow and
    the last ones for positive flow; [pressure_outlet] is [pressure_face] at
    [izfout], and [pressure_face] is [_interpolate_channel] on the pressures
    of the nodes. *)





(** ** Temperature terms of the electrode and the electrolyte

    The axis arguments are the configured face lists; the [x] axis is built
    from [cv_xfaces] as the [z] axis is from [cv_zfaces].  [temperature] is
    the accessor of the node temperatures along the axis in question. *)


(** [temperature_zfaces]: the temperature at a [z] face, the bounds being
    the temperatures of the first and of the last node. *)
Definition temperature_zfaces (cv_zfaces : list Q)
    (temperature : Z -> res Q) (iz : Z) : res Q :=
  phi_bound_0 <-
    (n <- Set_first (iznodes cv_zfaces) ;; temperature n) ;;
  phi_bound_1 <-
    (n <- Set_last (iznodes cv_zfaces) ;; temperature n) ;;
  _interpolate_2D iz (izfaces cv_zfaces) (znodes cv_zfaces)
    (zfaces cv_zfaces) temperature (Literal phi_bound_0)
    (Literal phi_bound_1) false CDS CV_Direction.Z.

(** ** Python containers and their exceptions

    The functions below read dictionaries and indexed components, which
    raise [KeyError]; [outcome] is the error monad over the exceptions of
    [exn] and [KeyError]. *)

Inductive pyexn : Type :=
| KeyError
| Builtin (e : exn).

Inductive outcome (A : Type) : Type :=
| Done (a : A)
| Fail (e : pyexn).

Arguments Done {A} a.
Arguments Fail {A} e.

Definition obind {A B : Type} (c : outcome A) (k : A -> outcome B)
    : outcome B :=
  match c with
  | Done a => k a
  | Fail e => Fail e
  end.

Declare Scope outcome_scope.
Delimit Scope outcome_scope with outcome.
Notation "x <~ c ;; k" := (obind c (fun x => k))
  (at level 61, c at next level, right associativity) : outcome_scope.
Local Open Scope outcome_scope.

(** [l[i] = x] on a list. *)
Fixpoint list_assign {A : Type} (l : list A) (i : nat) (x : A)
    : outcome (list A) :=
  match l, i with
  | [], _ => Fail (Builtin IndexError)
  | _ :: t, O => Done (x :: t)
  | h :: t, S j => t' <~ list_assign t j x ;; Done (h :: t')
  end.

(** A dictionary with keys [0, 1, ...], in insertion order. *)
Definition dict (V : Type) : Type := list (nat * V).

Fixpoint dict_get {V : Type} (d : dict V) (k : nat) : outcome V :=
  match d with
  | [] => Fail KeyError
  | (k', v) :: rest => if Nat.eqb k k' then Done v else dict_get rest k
  end.

(** [d[k] = v]: replaces the value of an existing key, appends a new key. *)
Fixpoint dict_set {V : Type} (d : dict V) (k : nat) (v : V) : dict V :=
  match d with
  | [] => [(k, v)]
  | (k', v') :: rest =>
      if Nat.eqb k k' then (k', v) :: rest else (k', v') :: dict_set rest k v
  end.

(** [for i, a in enumerate(l): body], threading the state. *)
Fixpoint for_enumerate {A St : Type} (body : nat -> A -> St -> outcome St)
    (i : nat) (l : list A) (s : St) : outcome St :=
  match l with
  | [] => Done s
  | a :: rest => s' <~ body i a s ;; for_enumerate body (S i) rest s'
  end.

(** ** [contour_grid_data]

    The three buffers [data_z], [data_x], [data_w] are allocated once and
    overwritten for every row; a row of a table is a copy of a buffer.
    [var t i j] stands for [pyo.value(var[t, i, j])]. *)

Definition cell : Type := option Q.
Definition grid : Type := list (option (list cell)).

Record buffers : Type := mk_buffers
  { data_z : list cell; data_x : list cell; data_w : list cell }.

Record tables : Type := mk_tables
  { zg : dict grid; xg : dict grid; hg : dict grid }.

(** [tbl[it][iz] = copy.copy(data)] *)
Definition store_row (tbl : dict grid) (it iz : nat) (data : list cell)
    : outcome (dict grid) :=
  g <~ dict_get tbl it ;;
  g' <~ list_assign g iz (Some data) ;;
  Done (dict_set tbl it g').

Definition contour_body_x (var : Q -> Z -> Z -> outcome Q) (t z : Q)
    (iz : nat) (ix : nat) (x : Q) (b : buffers) : outcome buffers :=
  dz' <~ list_assign (data_z b) ix (Some z) ;;
  dx' <~ list_assign (data_x b) ix (Some x) ;;
  w <~ var t (Z.of_nat ix + 1)%Z (Z.of_nat iz + 1)%Z ;;
  dw' <~ list_assign (data_w b) ix (Some w) ;;
  Done (mk_buffers dz' dx' dw').

Definition contour_body_z (var : Q -> Z -> Z -> outcome Q) (xnodes : list Q)
    (it : nat) (t : Q) (iz : nat) (z : Q) (s : buffers * tables)
    : outcome (buffers * tables) :=
  let '(b, tb) := s in
  b' <~ for_enumerate (contour_body_x var t z iz) 0 xnodes b ;;
  zg' <~ store_row (zg tb) it iz (data_z b') ;;
  xg' <~ store_row (xg tb) it iz (data_x b') ;;
  hg' <~ store_row (hg tb) it iz (data_w b') ;;
  Done (b', mk_tables zg' xg' hg').

Definition contour_body_t (var : Q -> Z -> Z -> outcome Q)
    (xnodes znodes : list Q) (it : nat) (t : Q) (s : buffers * tables)
    : outcome (buffers * tables) :=
  let '(b, tb) := s in
  let nz := List.length znodes in
  let zg1 := dict_set (zg tb) it (repeat None nz) in
  let xg1 := dict_set (xg tb) it (repeat None nz) in
  let hg1 := dict_set (hg tb) it (repeat None nz) in
  for_enumerate (contour_body_z var xnodes it t) 0 znodes
    (b, mk_tables zg1 xg1 hg1).

Definition contour_grid_data (var : Q -> Z -> Z -> outcome Q)
    (time xnodes znodes : list Q)
    : outcome (dict grid * dict grid * dict grid) :=
  let nx := List.length xnodes in
  let b0 := mk_buffers (repeat None nx) (repeat None nx) (repeat None nx) in
  s <~ for_enumerate (contour_body_t var xnodes znodes) 0 time
         (b0, mk_tables [] [] []) ;;
  let '(_, tb) := s in
  Done (zg tb, xg tb, hg tb).

(** The tables written as comprehensions: the rows of one time index, and
    the dictionaries over [enumerate(time)]. *)
Definition enumerate_from {A : Type} (i : nat) (l : list A)
    : list (nat * A) :=
  combine (seq i (List.length l)) l.

Definition row_of_z (xnodes : list Q) (z : Q) : option (list cell) :=
  Some (repeat (Some z) (List.length xnodes)).

Definition row_of_x (xnodes : list Q) (z : Q) : option (list cell) :=
  Some (map Some xnodes).

Definition hg_row (w : Q -> Z -> Z -> Q) (t : Q) (iz : nat)
    (xnodes : list Q) : list cell :=
  map (fun ix => Some (w t (Z.of_nat ix + 1)%Z (Z.of_nat iz + 1)%Z))
      (seq 0 (List.length xnodes)).

Definition grid_z (xnodes znodes : list Q) : grid :=
  map (row_of_z xnodes) znodes.

Definition grid_x (xnodes znodes : list Q) : grid :=
  map (row_of_x xnodes) znodes.

Definition grid_h (w : Q -> Z -> Z -> Q) (xnodes znodes : list Q) (t : Q)
    : grid :=
  map (fun iz => Some (hg_row w t iz xnodes)) (seq 0 (List.length znodes)).

Definition zg_table (time xnodes znodes : list Q) : dict grid :=
  map (fun '(it, _) => (it, grid_z xnodes znodes)) (enumerate_from 0 time).

Definition xg_table (time xnodes znodes : list Q) : dict grid :=
  map (fun '(it, _) => (it, grid_x xnodes znodes)) (enumerate_from 0 time).

Definition hg_table (w : Q -> Z -> Z -> Q) (time xnodes znodes : list Q)
    : dict grid :=
  map (fun '(it, t) => (it, grid_h w xnodes znodes t))
      (enumerate_from 0 time).

(** ** [stitch] and [plot_dynamic] ([idaes/dynamic/util/plot.py])

    A positional argument of [stitch] is a time set, or a component indexed
    by time: iterating over a component yields its index, and [value_at t]
    stands for [pyo.value(v[t])]. *)

Inductive stitch_arg : Type :=
| TimeSet (ts : list Q)
| Component (index : list Q) (value_at : Q -> outcome Q).

(** [[pyo.value(v[t]) for t in index]] *)
Fixpoint values_of (value_at : Q -> outcome Q) (index : list Q)
    : outcome (list Q) :=
  match index with
  | [] => Done []
  | t :: rest =>
      x <~ value_at t ;;
      xs <~ values_of value_at rest ;;
      Done (x :: xs)
  end.

Fixpoint stitch_from (l : list Q) (args : list stitch_arg)
    : outcome (list Q) :=
  match args with
  | [] => Done l
  | TimeSet ts :: rest => stitch_from (l ++ ts) rest
  | Component index value_at :: rest =>
      xs <~ values_of value_at index ;;
      stitch_from (l ++ xs) rest
  end.

Definition stitch (args : list stitch_arg) : outcome (list Q) :=
  stitch_from [] args.

Definition stitch_arg_size (v : stitch_arg) : nat :=
  match v with
  | TimeSet ts => List.length ts
  | Component index _ => List.length index
  end.

(** An entry of the list [y] of [plot_dynamic]: already a list (or tuple)
    of numbers, or a quantity indexed by time. *)
Inductive series : Type :=
| Listed (vals : list Q)
| Indexed (value_at : Q -> outcome Q).

(** The calls made to [matplotlib.pyplot], in order. *)
Inductive plt_call : Type :=
| plt_plot (time : list Q) (q : list Q)
| plt_legend (legend : list string)
| plt_title (title : string)
| plt_xlabel (xlabel : string)
| plt_ylabel (ylabel : string)
| plt_tight_layout
| plt_show.

(** The first loop: [y[i] = [pyo.value(z[t]) for t in time]] for every entry
    that is not a list; the list [y] of the caller is changed in place, and
    holds only lists afterwards. *)
Fixpoint convert_series (time : list Q) (y : list series)
    : outcome (list (list Q)) :=
  match y with
  | [] => Done []
  | Listed vals :: rest =>
      rest' <~ convert_series time rest ;;
      Done (vals :: rest')
  | Indexed value_at :: rest =>
      vals <~ values_of value_at time ;;
      rest' <~ convert_series time rest ;;
      Done (vals :: rest')
  end.

Definition optional_call {A : Type} (call : A -> plt_call) (a : option A)
    : list plt_call :=
  match a with
  | Some x => [call x]
  | None => []
  end.

(** [plot_dynamic] returns nothing; the result here is the list [y] as the
    call leaves it, and the calls made to [pyplot]: one [plot] per entry,
    then the legend and the title when given, the labels, the layout and
    [show]. *)
Definition plot_dynamic (time : list Q) (y : list series) (ylabel : string)
    (xlabel : string) (title : option string)
    (legend : option (list string))
    : outcome (list series * list plt_call) :=
  y' <~ convert_series time y ;;
  Done (map Listed y',
        map (plt_plot time) y'
        ++ optional_call plt_legend legend
        ++ optional_call plt_title title
        ++ [plt_xlabel xlabel; plt_ylabel ylabel; plt_tight_layout;
            plt_show]).

(** * Proofs *)

(** ** The axis of the scenarios *)

Example uniform_axis_nodes :
  znodes uniform_faces = [(0 + (1 # 4)) / 2; ((1 # 4) + (1 # 2)) / 2;
                          ((1 # 2) + (3 # 4)) / 2; ((3 # 4) + 1) / 2]
  /\ izfaces uniform_faces = [1; 2; 3; 4; 5]%Z.
Proof. split; reflexivity. Qed.

(** On the uniform axis with node values 10, 20, 30, 40 the face at 0.5
    gets the value 25 from both routines. *)
Example central_uniform_scenario :
  Set_at (zfaces uniform_faces) 3 = Ok (1 # 2)
  /\ returns_expr
       (_interpolate_channel 3 (izfaces uniform_faces)
          (znodes uniform_faces) (zfaces uniform_faces)
          (phi_of [10; 20; 30; 40]) 0 CDS false) 25
  /\ returns_num
       (_interpolate_2D 3 (izfaces uniform_faces) (znodes uniform_faces)
          (zfaces uniform_faces) (phi_of [10; 20; 30; 40])
          (Literal 0) (Literal 0) false CDS CV_Direction.Z) 25.
Proof.
  split; [reflexivity|]. split; eexists; split; reflexivity.
Qed.

(** ** Basic facts *)

Lemma pydiv_ok (a b : Q) : ~ b == 0 -> pydiv a b = Ok (a / b).
Proof.
  intros Hb. unfold pydiv.
  destruct (Qeq_bool b 0) eqn:E; [|reflexivity].
  apply Qeq_bool_iff in E. contradiction.
Qed.

Lemma last_ok_first_ok {A : Type} (s : list A) (y : A) :
  Set_last s = Ok y -> exists x, Set_first s = Ok x.
Proof.
  destruct s as [|a s]; [discriminate|]. intros _. now exists a.
Qed.

Lemma nonempty_first {A : Type} (s : list A) :
  s <> [] -> exists x, Set_first s = Ok x.
Proof.
  destruct s as [|a s]; [congruence|]. intros _. now exists a.
Qed.

Lemma nonempty_last {A : Type} (s : list A) :
  s <> [] -> exists y, Set_last s = Ok y.
Proof.
  intros Hne. unfold Set_last, Set_at, Set_len, Set_nth.
  assert (Hlen : (0 < List.length s)%nat)
    by (destruct s; [congruence | simpl; lia]).
  assert (H : (1 <=? Z.of_nat (List.length s))%Z = true)
    by (apply Z.leb_le; lia).
  rewrite H.
  destruct (nth_error s (Z.to_nat (Z.of_nat (List.length s) - 1))) eqn:E.
  - eauto.
  - apply nth_error_None in E. lia.
Qed.

Lemma eqb_false_of_neq (a b : Z) : a <> b -> (a =? b)%Z = false.
Proof. intros H. now apply Z.eqb_neq. Qed.

Lemma eqb_false_of_not_ok (r : res Z) (a b : Z) :
  r = Ok b -> r <> Ok a -> (a =? b)%Z = false.
Proof. intros -> H. apply eqb_false_of_neq. congruence. Qed.

(** A face that is not the inlet face passes both early returns. *)
Lemma not_inlet_guards (oposite_flow : bool) (iz : Z) (ifaces : list Z) :
  ifaces <> [] ->
  inlet_face oposite_flow ifaces <> Ok iz ->
  exists f0 l0,
    Set_first ifaces = Ok f0 /\ Set_last ifaces = Ok l0
    /\ (iz =? f0)%Z && negb oposite_flow = false
    /\ (iz =? l0)%Z && oposite_flow = false.
Proof.
  intros Hne Hin.
  destruct (nonempty_first ifaces Hne) as [f0 Hf].
  destruct (nonempty_last ifaces Hne) as [l0 Hl].
  exists f0, l0. repeat split; trivial; unfold inlet_face in Hin;
    destruct oposite_flow; simpl; rewrite ?andb_false_r, ?andb_true_r;
    try reflexivity; eapply eqb_false_of_not_ok; eassumption.
Qed.

Ltac channel_past_inlet Hne Hin :=
  let f0 := fresh "f0" in
  let l0 := fresh "l0" in
  let Hf := fresh "Hf" in
  let Hl := fresh "Hl" in
  let G1 := fresh "G" in
  let G2 := fresh "G" in
  destruct (not_inlet_guards _ _ _ Hne Hin) as (f0 & l0 & Hf & Hl & G1 & G2);
  unfold _interpolate_channel, bind, ret;
  rewrite Hf, G1, Hl, G2.

(** ** Claims about [_interpolate_channel] *)

(** C2. On the inlet face (the first face for positive flow, the last face
    for negative flow) [_interpolate_channel] returns [phi_inlet] itself,
    for every scheme, accessor, node set and face set. *)
Theorem interpolate_channel_inlet
    (iz : Z) (ifaces : list Z) (nodes faces : list Q)
    (phi_func : Z -> res Q) (phi_inlet : Q)
    (method : CV_Interpolation) (oposite_flow : bool) :
  inlet_face oposite_flow ifaces = Ok iz ->
  _interpolate_channel iz ifaces nodes faces phi_func phi_inlet
    method oposite_flow = Ok (Expr phi_inlet).
Proof.
  unfold inlet_face, _interpolate_channel, bind, ret.
  destruct oposite_flow; intros Hin.
  - destruct (last_ok_first_ok ifaces iz Hin) as [x Hx].
    rewrite Hx, andb_false_r, Hin, Z.eqb_refl. reflexivity.
  - rewrite Hin, Z.eqb_refl. reflexivity.
Qed.

Lemma interpolate_channel_inlet_witness :
  inlet_face false (izfaces uniform_faces) = Ok 1%Z
  /\ _interpolate_channel 1 (izfaces uniform_faces) (znodes uniform_faces)
       (zfaces uniform_faces) (phi_of [10; 20; 30; 40]) 5 UDS false
     = Ok (Expr 5).
Proof.
  split; [reflexivity|].
  apply (interpolate_channel_inlet 1 (izfaces uniform_faces)
           (znodes uniform_faces) (zfaces uniform_faces)
           (phi_of [10; 20; 30; 40]) 5 UDS false).
  reflexivity.
Defined.

(** C7. With the UDS scheme, at every face that is not the inlet face,
    [_interpolate_channel] returns what the accessor gives for the upstream
    node ([iz - 1] for positive flow, [iz] for negative flow), unchanged. *)
Theorem interpolate_channel_upwind
    (iz : Z) (ifaces : list Z) (nodes faces : list Q)
    (phi_func : Z -> res Q) (phi_inlet : Q) (oposite_flow : bool) :
  ifaces <> [] ->
  inlet_face oposite_flow ifaces <> Ok iz ->
  _interpolate_channel iz ifaces nodes faces phi_func phi_inlet
    UDS oposite_flow
  = (v <- phi_func (if oposite_flow then iz else iz - 1)%Z ;; ret (Expr v)).
Proof.
  intros Hne Hin. channel_past_inlet Hne Hin.
  destruct oposite_flow; reflexivity.
Qed.

Lemma interpolate_channel_upwind_witness :
  (izfaces uniform_faces <> []
   /\ inlet_face false (izfaces uniform_faces) <> Ok 4%Z)
  /\ _interpolate_channel 4 (izfaces uniform_faces) (znodes uniform_faces)
       (zfaces uniform_faces) (phi_of [10; 20; 30; 40]) 5 UDS false
     = Ok (Expr 30).
Proof.
  split; [split; discriminate|].
  apply (interpolate_channel_upwind 4 (izfaces uniform_faces)
           (znodes uniform_faces) (zfaces uniform_faces)
           (phi_of [10; 20; 30; 40]) 5 false); discriminate.
Defined.

(** C4 (what the code does). With the QUICK scheme, at every face that is
    not the inlet face, [_interpolate_channel] raises nothing: no branch
    matches the scheme, the body ends, and the call returns [None]. *)
Theorem interpolate_channel_quick_returns_none
    (iz : Z) (ifaces : list Z) (nodes faces : list Q)
    (phi_func : Z -> res Q) (phi_inlet : Q) (oposite_flow : bool) :
  ifaces <> [] ->
  inlet_face oposite_flow ifaces <> Ok iz ->
  _interpolate_channel iz ifaces nodes faces phi_func phi_inlet
    QUICK oposite_flow = Ok PyNone.
Proof.
  intros Hne Hin. channel_past_inlet Hne Hin.
  destruct oposite_flow; reflexivity.
Qed.

Lemma interpolate_channel_quick_witness :
  (izfaces uniform_faces <> []
   /\ inlet_face false (izfaces uniform_faces) <> Ok 3%Z)
  /\ _interpolate_channel 3 (izfaces uniform_faces) (znodes uniform_faces)
       (zfaces uniform_faces) (phi_of [10; 20; 30; 40]) 5 QUICK false
     = Ok PyNone.
Proof.
  split; [split; discriminate|].
  apply (interpolate_channel_quick_returns_none 3 (izfaces uniform_faces)
           (znodes uniform_faces) (zfaces uniform_faces)
           (phi_of [10; 20; 30; 40]) 5 false); discriminate.
Defined.

(** *** The CDS branch *)

(** Past the inlet test, the CDS branch reads the nodes [izu] and [izd],
    where [izd] is the downstream node, or the node two upstream of the face
    when the face is the outlet face. *)
Lemma channel_CDS_eval
    (iz : Z) (ifaces : list Z) (nodes faces : list Q)
    (phi_func : Z -> res Q) (phi_inlet : Q) (oposite_flow : bool) (o : Z) :
  ifaces <> [] ->
  inlet_face oposite_flow ifaces <> Ok iz ->
  outlet_face oposite_flow ifaces = Ok o ->
  _interpolate_channel iz ifaces nodes faces phi_func phi_inlet
    CDS oposite_flow
  = (let izu := upstream oposite_flow iz in
     let izd := if (iz =? o)%Z then two_upstream oposite_flow iz
                else downstream oposite_flow iz in
     zu <- Set_at nodes izu ;;
     zd <- Set_at nodes izd ;;
     zf <- Set_at faces iz ;;
     lambf <- pydiv (zd - zf) (zd - zu) ;;
     pu <- phi_func izu ;;
     pd <- phi_func izd ;;
     ret (Expr ((1 - lambf) * pu + lambf * pd))).
Proof.
  intros Hne Hin Hout. channel_past_inlet Hne Hin.
  unfold outlet_face in Hout. unfold upstream, two_upstream, downstream.
  destruct oposite_flow; simpl negb; cbv zeta beta iota.
  - rewrite Hf in Hout. injection Hout as <-.
    destruct (Set_at nodes iz); reflexivity.
  - rewrite Hl in Hout. injection Hout as <-.
    destruct (Set_at nodes (iz - 1)); reflexivity.
Qed.

(** Once both nodes and the face are found, the two node coordinates differ
    and the accessor answers, the chain of the CDS branch yields
    [cds_value]. *)
Lemma cds_chain_value
    (nodes faces : list Q) (phi_func : Z -> res Q)
    (iz izu izd : Z) (zu zd zf pu pd : Q) :
  Set_at nodes izu = Ok zu ->
  Set_at nodes izd = Ok zd ->
  Set_at faces iz = Ok zf ->
  ~ zd == zu ->
  phi_func izu = Ok pu ->
  phi_func izd = Ok pd ->
  (zu <- Set_at nodes izu ;;
   zd <- Set_at nodes izd ;;
   zf <- Set_at faces iz ;;
   lambf <- pydiv (zd - zf) (zd - zu) ;;
   pu <- phi_func izu ;;
   pd <- phi_func izd ;;
   ret ((1 - lambf) * pu + lambf * pd))
  = Ok (cds_value zu zd zf pu pd).
Proof.
  intros Hu Hd Hf Hne Hpu Hpd. unfold bind, ret.
  rewrite Hu, Hd, Hf, pydiv_ok, Hpu, Hpd by lra. reflexivity.
Qed.

Lemma channel_CDS_value
    (iz : Z) (ifaces : list Z) (nodes faces : list Q)
    (phi_func : Z -> res Q) (phi_inlet : Q) (oposite_flow : bool)
    (o izd : Z) (zu zd zf pu pd : Q) :
  ifaces <> [] ->
  inlet_face oposite_flow ifaces <> Ok iz ->
  outlet_face oposite_flow ifaces = Ok o ->
  izd = (if (iz =? o)%Z then two_upstream oposite_flow iz
         else downstream oposite_flow iz) ->
  Set_at nodes (upstream oposite_flow iz) = Ok zu ->
  Set_at nodes izd = Ok zd ->
  Set_at faces iz = Ok zf ->
  ~ zd == zu ->
  phi_func (upstream oposite_flow iz) = Ok pu ->
  phi_func izd = Ok pd ->
  _interpolate_channel iz ifaces nodes faces phi_func phi_inlet
    CDS oposite_flow = Ok (Expr (cds_value zu zd zf pu pd)).
Proof.
  intros Hne Hin Hout -> Hu Hd Hf Hz Hpu Hpd.
  rewrite (channel_CDS_eval _ _ _ _ _ _ _ o Hne Hin Hout).
  cbv zeta. unfold bind, ret.
  rewrite Hu, Hd, Hf, pydiv_ok, Hpu, Hpd by lra. reflexivity.
Qed.

(** C8 (where the code departs from it).  At the outlet face the CDS branch
    does take the node two upstream of the face in the place of the
    downstream node, and applies its formula to it with the two weights
    exchanged.  On the uniform axis with node values 10, 20, 30, 40 and
    positive flow, the outlet face 5 (coordinate 1) has the upstream node at
    0.875 (value 40) and the node two upstream at 0.625 (value 30); the
    weight is [lambf = 1.5] and the call returns
    [(1 - 1.5) * 40 + 1.5 * 30 = 25], below both node values, where the
    straight line through the two nodes gives 45 and weighting by inverse
    distance gives 37.5.  For negative flow the outlet face 1 gets 25 as
    well, above both node values 10 and 20, where the line gives 5.  On an
    axis with a single cell there is no node two upstream and the call
    raises [IndexError]. *)
Theorem central_outlet_weights_exchanged :
  (outlet_face false (izfaces uniform_faces) = Ok 5%Z
   /\ Set_at (znodes uniform_faces) (upstream false 5)
      = Ok (((3 # 4) + 1) / 2)
   /\ Set_at (znodes uniform_faces) (two_upstream false 5)
      = Ok (((1 # 2) + (3 # 4)) / 2)
   /\ lambf_of (7 # 8) (5 # 8) 1 == 3 # 2
   /\ returns_expr
        (_interpolate_channel 5 (izfaces uniform_faces)
           (znodes uniform_faces) (zfaces uniform_faces)
           (phi_of [10; 20; 30; 40]) 0 CDS false) 25
   /\ linear_extrapolation (7 # 8) (5 # 8) 1 40 30 == 45
   /\ inverse_distance_interpolation (7 # 8) (5 # 8) 1 40 30 == 75 # 2
   /\ 25 < Qmin 40 30)
  /\ (outlet_face true (izfaces uniform_faces) = Ok 1%Z
      /\ lambf_of (1 # 8) (3 # 8) 0 == 3 # 2
      /\ returns_expr
           (_interpolate_channel 1 (izfaces uniform_faces)
              (znodes uniform_faces) (zfaces uniform_faces)
              (phi_of [10; 20; 30; 40]) 0 CDS true) 25
      /\ linear_extrapolation (1 # 8) (3 # 8) 0 10 20 == 5
      /\ Qmax 10 20 < 25)
  /\ (outlet_face false (izfaces [0; 1]) = Ok 2%Z
      /\ _interpolate_channel 2 (izfaces [0; 1]) (znodes [0; 1])
           (zfaces [0; 1]) (phi_of [10]) 0 CDS false = Raise IndexError
      /\ outlet_face true (izfaces [0; 1]) = Ok 1%Z
      /\ _interpolate_channel 1 (izfaces [0; 1]) (znodes [0; 1])
           (zfaces [0; 1]) (phi_of [10]) 0 CDS true = Raise IndexError).
Proof.
  repeat split; try reflexivity;
    eexists; split; reflexivity.
Qed.

(** ** Claims about [_interpolate_2D] *)

Lemma interpolate_2D_window
    (ic : Z) (ifaces : list Z) (nodes faces : list Q)
    (phi_func : Z -> res Q) (b0 b1 : bound) (derivative : bool)
    (direction : CV_Direction.t) (icu icd : Z) :
  window2D ifaces b0 b1 ic icu icd ->
  _interpolate_2D ic ifaces nodes faces phi_func b0 b1 derivative CDS
    direction
  = cds_from_window nodes faces phi_func derivative ic icu icd.
Proof.
  intros W. unfold _interpolate_2D, cds_from_window.
  change (negb (CV_Interpolation_eqb CDS CDS)) with false. cbv iota zeta.
  destruct W as [Hne Hf Hl | s Hf Hl -> | s Hl Hf -> | s0 s1 Hf Hl -> ->].
  - destruct (nonempty_first ifaces Hne) as [f0 Ef].
    destruct (nonempty_last ifaces Hne) as [l0 El].
    unfold bind at 1. rewrite Ef.
    rewrite (eqb_false_of_not_ok _ ic f0 Ef Hf).
    unfold bind at 1. rewrite El.
    rewrite (eqb_false_of_not_ok _ ic l0 El Hl).
    destruct b0, b1; reflexivity.
  - destruct (nonempty_last ifaces) as [l0 El].
    { intros ->. discriminate. }
    unfold bind at 1. rewrite Hf, Z.eqb_refl.
    unfold bind at 1. rewrite El.
    rewrite (eqb_false_of_not_ok _ ic l0 El Hl).
    destruct b1; reflexivity.
  - destruct (last_ok_first_ok ifaces ic Hl) as [f0 Ef].
    unfold bind at 1. rewrite Ef.
    rewrite (eqb_false_of_not_ok _ ic f0 Ef Hf).
    unfold bind at 1. rewrite Hl, Z.eqb_refl.
    destruct b0; reflexivity.
  - unfold bind at 1. rewrite Hf, Z.eqb_refl.
    unfold bind at 1. rewrite Hl, Z.eqb_refl. reflexivity.
Qed.

(** With the CDS scheme and a non-empty face set, a call either returns a
    literal bound or runs the closing computation on one of the windows. *)
Lemma window2D_or_literal (ifaces : list Z) (b0 b1 : bound) (ic : Z) :
  ifaces <> [] ->
  (exists v,
     (Set_first ifaces = Ok ic /\ b0 = Literal v)
     \/ (Set_last ifaces = Ok ic /\ b1 = Literal v
         /\ (Set_first ifaces <> Ok ic \/ exists s, b0 = Sentinel s)))
  \/ (exists icu icd, window2D ifaces b0 b1 ic icu icd).
Proof.
  intros Hne.
  destruct (nonempty_first ifaces Hne) as [f0 Ef].
  destruct (nonempty_last ifaces Hne) as [l0 El].
  assert (Df : Set_first ifaces = Ok ic \/ Set_first ifaces <> Ok ic).
  { rewrite Ef. destruct (Z.eq_dec f0 ic) as [->|N]; [now left|].
    right. congruence. }
  assert (Dl : Set_last ifaces = Ok ic \/ Set_last ifaces <> Ok ic).
  { rewrite El. destruct (Z.eq_dec l0 ic) as [->|N]; [now left|].
    right. congruence. }
  destruct Df as [Hf | Hf], Dl as [Hl | Hl].
  - destruct b0 as [v|s0]; [left; exists v; now left|].
    destruct b1 as [v|s1].
    + left. exists v. right. repeat split; trivial. right. now exists s0.
    + right. exists (ic + 1)%Z, (ic - 2)%Z.
      now apply (window_both _ _ _ _ s0 s1).
  - destruct b0 as [v|s0]; [left; exists v; now left|].
    right. exists (ic + 1)%Z, ic. now apply (window_first _ _ _ _ s0).
  - destruct b1 as [v|s1].
    + left. exists v. right. repeat split; trivial. now left.
    + right. exists (ic - 1)%Z, (ic - 2)%Z.
      now apply (window_last _ _ _ _ s1).
  - right. exists (ic - 1)%Z, ic. now apply window_interior.
Qed.

(** In value mode the closing computation yields [cds_value] on the two
    reference nodes of the face. *)
Lemma interpolate_2D_value
    (ic : Z) (ifaces : list Z) (nodes faces : list Q)
    (phi_func : Z -> res Q) (b0 b1 : bound) (direction : CV_Direction.t)
    (icu icd : Z) (cu cd cf pu pd : Q) :
  window2D ifaces b0 b1 ic icu icd ->
  Set_at nodes icu = Ok cu ->
  Set_at nodes icd = Ok cd ->
  Set_at faces ic = Ok cf ->
  ~ cd == cu ->
  phi_func icu = Ok pu ->
  phi_func icd = Ok pd ->
  _interpolate_2D ic ifaces nodes faces phi_func b0 b1 false CDS direction
  = Ok (cds_value cu cd cf pu pd).
Proof.
  intros W Hu Hd Hf Hz Hpu Hpd.
  rewrite (interpolate_2D_window _ _ _ _ _ _ _ _ _ _ _ W).
  unfold cds_from_window. simpl negb. cbv iota.
  now apply cds_chain_value.
Qed.

(** C6. At the first face a literal low bound is returned as it is, and a
    [CV_Bound] low bound moves the reference nodes to [ic] and [ic + 1]; at
    the last face a literal high bound is returned as it is, and a
    [CV_Bound] high bound moves the reference nodes to [ic - 2] and
    [ic - 1].  (Face sets whose first and last members differ.) *)
Theorem interpolate_2D_boundary
    (ic : Z) (ifaces : list Z) (nodes faces : list Q)
    (phi_func : Z -> res Q) (b0 b1 : bound) (derivative : bool)
    (direction : CV_Direction.t) :
  Set_first ifaces <> Set_last ifaces ->
  (Set_first ifaces = Ok ic ->
   match b0 with
   | Literal v =>
       _interpolate_2D ic ifaces nodes faces phi_func b0 b1 derivative CDS
         direction = Ok v
   | Sentinel _ =>
       _interpolate_2D ic ifaces nodes faces phi_func b0 b1 derivative CDS
         direction
       = cds_from_window nodes faces phi_func derivative ic (ic + 1) ic
   end)
  /\ (Set_last ifaces = Ok ic ->
      match b1 with
      | Literal v =>
          _interpolate_2D ic ifaces nodes faces phi_func b0 b1 derivative CDS
            direction = Ok v
      | Sentinel _ =>
          _interpolate_2D ic ifaces nodes faces phi_func b0 b1 derivative CDS
            direction
          = cds_from_window nodes faces phi_func derivative ic (ic - 1)
              (ic - 2)
      end).
Proof.
  intros Hdiff. split; intros Hend.
  - destruct b0 as [v|s].
    + unfold _interpolate_2D, bind, ret. simpl.
      rewrite Hend, Z.eqb_refl. reflexivity.
    + apply interpolate_2D_window. apply (window_first _ _ _ _ s); trivial.
      congruence.
  - assert (Hf : Set_first ifaces <> Ok ic) by congruence.
    destruct b1 as [v|s].
    + destruct (last_ok_first_ok ifaces ic Hend) as [f0 Ef].
      unfold _interpolate_2D, bind, ret. simpl.
      rewrite Ef, (eqb_false_of_not_ok _ ic f0 Ef Hf), Hend, Z.eqb_refl.
      destruct b0; reflexivity.
    + apply interpolate_2D_window. apply (window_last _ _ _ _ s); trivial.
Qed.

Lemma interpolate_2D_boundary_witness :
  Set_first (izfaces uniform_faces) <> Set_last (izfaces uniform_faces)
  /\ _interpolate_2D 1 (izfaces uniform_faces) (znodes uniform_faces)
       (zfaces uniform_faces) (phi_of [10; 20; 30; 40])
       (Literal 7) (Sentinel EXTRAPOLATE) false CDS CV_Direction.Z = Ok 7
  /\ _interpolate_2D 5 (izfaces uniform_faces) (znodes uniform_faces)
       (zfaces uniform_faces) (phi_of [10; 20; 30; 40])
       (Literal 7) (Sentinel EXTRAPOLATE) false CDS CV_Direction.Z
     = cds_from_window (znodes uniform_faces) (zfaces uniform_faces)
         (phi_of [10; 20; 30; 40]) false 5 4 3.
Proof.
  assert (H : Set_first (izfaces uniform_faces)
              <> Set_last (izfaces uniform_faces)) by discriminate.
  split; [exact H|].
  split.
  - exact (proj1 (interpolate_2D_boundary 1 (izfaces uniform_faces)
             (znodes uniform_faces) (zfaces uniform_faces)
             (phi_of [10; 20; 30; 40]) (Literal 7) (Sentinel EXTRAPOLATE)
             false CV_Direction.Z H) eq_refl).
  - exact (proj2 (interpolate_2D_boundary 5 (izfaces uniform_faces)
             (znodes uniform_faces) (zfaces uniform_faces)
             (phi_of [10; 20; 30; 40]) (Literal 7) (Sentinel EXTRAPOLATE)
             false CV_Direction.Z H) eq_refl).
Defined.

(** C10. When the face is the first face and the low bound is a literal, or
    the face is the last face (and not also a first face with a literal low
    bound) and the high bound is a literal, that literal is what
    [_interpolate_2D] returns, whatever the [derivative] flag says: with
    [derivative = True] no slope is computed there. *)
Theorem interpolate_2D_literal_bound_wins
    (ic : Z) (ifaces : list Z) (nodes faces : list Q)
    (phi_func : Z -> res Q) (b0 b1 : bound) (derivative : bool)
    (direction : CV_Direction.t) (v : Q) :
  (Set_first ifaces = Ok ic /\ b0 = Literal v)
  \/ (Set_last ifaces = Ok ic /\ b1 = Literal v
      /\ (Set_first ifaces <> Ok ic \/ exists s, b0 = Sentinel s)) ->
  _interpolate_2D ic ifaces nodes faces phi_func b0 b1 derivative CDS
    direction = Ok v.
Proof.
  intros [[Hf ->] | (Hl & -> & Hlo)];
    unfold _interpolate_2D, bind, ret; simpl.
  - rewrite Hf, Z.eqb_refl. reflexivity.
  - destruct (last_ok_first_ok ifaces ic Hl) as [f0 Ef].
    rewrite Ef, Hl, Z.eqb_refl.
    destruct Hlo as [Hf | [s ->]].
    + rewrite (eqb_false_of_not_ok _ ic f0 Ef Hf). destruct b0; reflexivity.
    + destruct (ic =? f0)%Z; reflexivity.
Qed.

Lemma interpolate_2D_literal_bound_witness :
  ((Set_first (izfaces uniform_faces) = Ok 1%Z
    /\ Literal 7 = Literal 7)
   \/ (Set_last (izfaces uniform_faces) = Ok 1%Z
       /\ Literal 9 = Literal 7
       /\ (Set_first (izfaces uniform_faces) <> Ok 1%Z
           \/ exists s, Literal 7 = Sentinel s)))
  /\ _interpolate_2D 1 (izfaces uniform_faces) (znodes uniform_faces)
       (zfaces uniform_faces) (phi_of [10; 20; 30; 40])
       (Literal 7) (Literal 9) true CDS CV_Direction.Z = Ok 7.
Proof.
  split; [left; split; reflexivity|].
  apply (interpolate_2D_literal_bound_wins 1 (izfaces uniform_faces)
           (znodes uniform_faces) (zfaces uniform_faces)
           (phi_of [10; 20; 30; 40]) (Literal 7) (Literal 9) true
           CV_Direction.Z 7).
  left; split; reflexivity.
Defined.

(** C3. In derivative mode, at a face that is neither first nor last, or at
    a boundary face whose bound is a [CV_Bound] member, [_interpolate_2D]
    returns [(phi(icd) - phi(icu)) / (cd - cu)] for its two reference nodes
    [icu], [icd] at coordinates [cu], [cd]: the slope between those two
    nodes, whatever their spacing. *)
Theorem interpolate_2D_derivative
    (ic : Z) (ifaces : list Z) (nodes faces : list Q)
    (phi_func : Z -> res Q) (b0 b1 : bound) (direction : CV_Direction.t)
    (icu icd : Z) (cu cd pu pd : Q) :
  window2D ifaces b0 b1 ic icu icd ->
  Set_at nodes icu = Ok cu ->
  Set_at nodes icd = Ok cd ->
  ~ cd == cu ->
  phi_func icu = Ok pu ->
  phi_func icd = Ok pd ->
  _interpolate_2D ic ifaces nodes faces phi_func b0 b1 true CDS direction
  = Ok ((pd - pu) / (cd - cu)).
Proof.
  intros W Hu Hd Hz Hpu Hpd.
  rewrite (interpolate_2D_window _ _ _ _ _ _ _ _ _ _ _ W).
  unfold cds_from_window, bind. simpl.
  rewrite Hu, Hd, Hpd, Hpu. apply pydiv_ok. lra.
Qed.

Lemma interpolate_2D_derivative_witness :
  (window2D (izfaces uniform_faces) (Sentinel EXTRAPOLATE) (Literal 0)
     1 2 1
   /\ Set_at (znodes uniform_faces) 2 = Ok (((1 # 4) + (1 # 2)) / 2)
   /\ Set_at (znodes uniform_faces) 1 = Ok ((0 + (1 # 4)) / 2)
   /\ ~ (0 + (1 # 4)) / 2 == ((1 # 4) + (1 # 2)) / 2
   /\ phi_of [100; 120; 140; 160] 2 = Ok 120
   /\ phi_of [100; 120; 140; 160] 1 = Ok 100)
  /\ returns_num
       (_interpolate_2D 1 (izfaces uniform_faces) (znodes uniform_faces)
          (zfaces uniform_faces) (phi_of [100; 120; 140; 160])
          (Sentinel EXTRAPOLATE) (Literal 0) true CDS CV_Direction.Z) 80.
Proof.
  assert (W : window2D (izfaces uniform_faces) (Sentinel EXTRAPOLATE)
                (Literal 0) 1 2 1).
  { apply (window_first _ _ _ 1%Z EXTRAPOLATE);
      [reflexivity | discriminate | reflexivity]. }
  split; [repeat split; try reflexivity; try exact W; discriminate|].
  eexists. split.
  - apply (interpolate_2D_derivative 1 (izfaces uniform_faces)
             (znodes uniform_faces) (zfaces uniform_faces)
             (phi_of [100; 120; 140; 160]) (Sentinel EXTRAPOLATE) (Literal 0)
             CV_Direction.Z 2 1
             (((1 # 4) + (1 # 2)) / 2) ((0 + (1 # 4)) / 2) 120 100 W);
      try reflexivity; discriminate.
  - reflexivity.
Defined.

(** *** Unsupported schemes *)

(** C5 as stated fails: the error raised for the unsupported scheme UDS does
    not name that scheme. *)
Lemma interpolate_2D_error_does_not_name_scheme :
  ~ (exists msg,
       _interpolate_2D 2 (izfaces uniform_faces) (znodes uniform_faces)
         (zfaces uniform_faces) (phi_of [10; 20; 30; 40])
         (Sentinel EXTRAPOLATE) (Sentinel EXTRAPOLATE) false UDS
         CV_Direction.Z = Raise (RuntimeError msg)
       /\ identifies_scheme msg UDS = true).
Proof.
  intros (msg & Hr & Hid).
  injection Hr as <-. vm_compute in Hid. discriminate.
Qed.

(** C5 (amended). For every face index, accessor, face and node sets and
    both bounds, [_interpolate_2D] called with a scheme other than CDS
    raises [RuntimeError] before anything else is evaluated; the message is
    one fixed text, which says that only CDS is supported and does not name
    the scheme that was asked for. *)
Theorem interpolate_2D_unsupported_scheme
    (ic : Z) (ifaces : list Z) (nodes faces : list Q)
    (phi_func : Z -> res Q) (b0 b1 : bound) (derivative : bool)
    (method : CV_Interpolation) (direction : CV_Direction.t) :
  method <> CDS ->
  _interpolate_2D ic ifaces nodes faces phi_func b0 b1 derivative method
    direction = Raise (RuntimeError only_CDS_message)
  /\ mentions only_CDS_message (CV_Interpolation_name CDS) = true
  /\ identifies_scheme only_CDS_message method = false.
Proof.
  intros Hm. destruct method; try congruence;
    (split; [reflexivity | split; vm_compute; reflexivity]).
Qed.

Lemma interpolate_2D_unsupported_scheme_witness :
  QUICK <> CDS
  /\ _interpolate_2D 0 [] [] [] (fun _ => Raise IndexError)
       (Literal 0) (Literal 0) true QUICK CV_Direction.X
     = Raise (RuntimeError only_CDS_message).
Proof.
  split; [discriminate|].
  apply (interpolate_2D_unsupported_scheme 0 [] [] []
           (fun _ => Raise IndexError) (Literal 0) (Literal 0) true QUICK
           CV_Direction.X).
  discriminate.
Defined.

(** *** The CDS value at a face between two nodes *)

Lemma lambf_times (zu zd zf : Q) :
  ~ zd == zu -> lambf_of zu zd zf * (zd - zu) == zd - zf.
Proof.
  intros H. unfold lambf_of. field. lra.
Qed.

Lemma lambf_unit (zu zd zf : Q) :
  (zu < zf /\ zf < zd) \/ (zd < zf /\ zf < zu) ->
  0 <= lambf_of zu zd zf /\ lambf_of zu zd zf <= 1.
Proof.
  intros H.
  assert (Hne : ~ zd == zu) by (destruct H; lra).
  pose proof (lambf_times zu zd zf Hne) as E.
  set (lam := lambf_of zu zd zf) in *.
  destruct H as [[H1 H2] | [H1 H2]]; split; nra.
Qed.

Lemma convex_between (lam a b : Q) :
  0 <= lam -> lam <= 1 ->
  Qmin a b <= (1 - lam) * a + lam * b
  /\ (1 - lam) * a + lam * b <= Qmax a b.
Proof.
  intros H0 H1.
  destruct (Qlt_le_dec a b) as [Hab | Hab].
  - rewrite (Q.min_l a b), (Q.max_r a b) by lra. split; nra.
  - rewrite (Q.min_r a b), (Q.max_l a b) by lra. split; nra.
Qed.

Lemma lambf_convex_weighting (zu zd zf pu pd : Q) :
  (zu < zf /\ zf < zd) \/ (zd < zf /\ zf < zu) ->
  convex_weighting (lambf_of zu zd zf) pu pd (cds_value zu zd zf pu pd).
Proof.
  intros H. destruct (lambf_unit zu zd zf H) as [H0 H1].
  unfold convex_weighting. repeat split; trivial.
  - ring.
  - now apply convex_between.
  - now apply convex_between.
Qed.

(** C9 as stated fails for the numbers Python computes with.  In binary64,
    on the axis with faces 0, 2, 3 (nodes at 1 and 2.5) and both node values
    equal to 15, the interior face 2 lies strictly between its two nodes,
    the weight is [lambf = 0.333...] and the two weights add up to 1, yet
    both routines return 15.000000000000002, the double next above 15: the
    rounded products are 10.000000000000002 and 5.  The value does not lie
    between the two node values. *)
Lemma central_value_not_between_in_binary64 :
  Binary64.znodes Binary64.uneven_faces = [1; 2.5]%float
  /\ Binary64.izfaces Binary64.uneven_faces = [1; 2; 3]%Z
  /\ Set_at (Binary64.zfaces Binary64.uneven_faces) 2 = Ok 2%float
  /\ (1 <? 2)%float = true /\ (2 <? 2.5)%float = true
  /\ (let lambf := ((2.5 - 2) / (2.5 - 1))%float in
      ((1 - lambf) + lambf)%float = 1%float
      /\ ((1 - lambf) * 15)%float = PrimFloat.next_up 10
      /\ (lambf * 15)%float = 5%float)
  /\ Binary64._interpolate_channel 2 (Binary64.izfaces Binary64.uneven_faces)
       (Binary64.znodes Binary64.uneven_faces)
       (Binary64.zfaces Binary64.uneven_faces)
       (Binary64.phi_of [15; 15]%float) 0%float CDS false
     = Ok (Binary64.Expr (PrimFloat.next_up 15))
  /\ Binary64._interpolate_2D 2 (Binary64.izfaces Binary64.uneven_faces)
       (Binary64.znodes Binary64.uneven_faces)
       (Binary64.zfaces Binary64.uneven_faces)
       (Binary64.phi_of [15; 15]%float)
       (Binary64.Literal 0%float) (Binary64.Literal 0%float) false CDS
       CV_Direction.Z
     = Ok (PrimFloat.next_up 15)
  /\ (15 <? PrimFloat.next_up 15)%float = true
  /\ (PrimFloat.next_up 15 <=? 15)%float = false.
Proof.
  repeat split; vm_compute; reflexivity.
Qed.

(** C9 (amended).  With the CDS scheme in value mode, at a face [iz] that is
    neither first nor last and lies strictly between its two neighbouring
    nodes, both routines return the term
    [(1 - lam) * phi(u) + lam * phi(d)] with
    [lam = (zd - zf) / (zd - zu)]; evaluated in exact arithmetic, the two
    weights add up to one, [lam] is in [[0, 1]], and the value lies between
    the two node values. *)
Theorem central_value_convex
    (iz : Z) (ifaces : list Z) (nodes faces : list Q)
    (phi_func : Z -> res Q) (phi_inlet : Q) (b0 b1 : bound)
    (direction : CV_Direction.t) (oposite_flow : bool)
    (n_lo n_hi zf p_lo p_hi : Q) :
  ifaces <> [] ->
  Set_first ifaces <> Ok iz ->
  Set_last ifaces <> Ok iz ->
  Set_at nodes (iz - 1) = Ok n_lo ->
  Set_at nodes iz = Ok n_hi ->
  Set_at faces iz = Ok zf ->
  n_lo < zf -> zf < n_hi ->
  phi_func (iz - 1)%Z = Ok p_lo ->
  phi_func iz = Ok p_hi ->
  let zu := if oposite_flow then n_hi else n_lo in
  let zd := if oposite_flow then n_lo else n_hi in
  let pu := if oposite_flow then p_hi else p_lo in
  let pd := if oposite_flow then p_lo else p_hi in
  (exists v,
     _interpolate_channel iz ifaces nodes faces phi_func phi_inlet CDS
       oposite_flow = Ok (Expr v)
     /\ convex_weighting (lambf_of zu zd zf) pu pd v)
  /\ (exists v,
        _interpolate_2D iz ifaces nodes faces phi_func b0 b1 false CDS
          direction = Ok v
        /\ convex_weighting (lambf_of n_lo n_hi zf) p_lo p_hi v).
Proof.
  intros Hne Hf Hl Hlo Hhi Hface Hlt1 Hlt2 Hplo Hphi zu zd pu pd.
  split.
  - exists (cds_value zu zd zf pu pd). split.
    + destruct (nonempty_first ifaces Hne) as [f0 Ef].
      destruct (nonempty_last ifaces Hne) as [l0 El].
      subst zu zd pu pd.
      destruct oposite_flow.
      * apply (channel_CDS_value iz ifaces nodes faces phi_func phi_inlet
                 true f0 (iz - 1)%Z);
          [ exact Hne | exact Hl | exact Ef
          | now rewrite (eqb_false_of_not_ok _ iz f0 Ef Hf)
          | exact Hhi | exact Hlo | exact Hface | lra
          | exact Hphi | exact Hplo ].
      * apply (channel_CDS_value iz ifaces nodes faces phi_func phi_inlet
                 false l0 iz);
          [ exact Hne | exact Hf | exact El
          | now rewrite (eqb_false_of_not_ok _ iz l0 El Hl)
          | exact Hlo | exact Hhi | exact Hface | lra
          | exact Hplo | exact Hphi ].
    + apply lambf_convex_weighting. subst zu zd.
      destruct oposite_flow; [right | left]; split; assumption.
  - exists (cds_value n_lo n_hi zf p_lo p_hi). split.
    + apply (interpolate_2D_value iz ifaces nodes faces phi_func b0 b1
               direction (iz - 1) iz); trivial.
      * now apply window_interior.
      * lra.
    + apply lambf_convex_weighting. left. split; assumption.
Qed.

Lemma central_value_convex_witness :
  (izfaces uniform_faces <> []
   /\ Set_first (izfaces uniform_faces) <> Ok 3%Z
   /\ Set_last (izfaces uniform_faces) <> Ok 3%Z
   /\ Set_at (znodes uniform_faces) (3 - 1) = Ok (((1 # 4) + (1 # 2)) / 2)
   /\ Set_at (znodes uniform_faces) 3 = Ok (((1 # 2) + (3 # 4)) / 2)
   /\ Set_at (zfaces uniform_faces) 3 = Ok (1 # 2)
   /\ ((1 # 4) + (1 # 2)) / 2 < 1 # 2
   /\ 1 # 2 < ((1 # 2) + (3 # 4)) / 2
   /\ phi_of [10; 20; 30; 40] (3 - 1) = Ok 20
   /\ phi_of [10; 20; 30; 40] 3 = Ok 30)
  /\ (exists v,
        _interpolate_channel 3 (izfaces uniform_faces)
          (znodes uniform_faces) (zfaces uniform_faces)
          (phi_of [10; 20; 30; 40]) 0 CDS true = Ok (Expr v)
        /\ convex_weighting
             (lambf_of (((1 # 2) + (3 # 4)) / 2) (((1 # 4) + (1 # 2)) / 2)
                (1 # 2)) 30 20 v)
  /\ (exists v,
        _interpolate_2D 3 (izfaces uniform_faces) (znodes uniform_faces)
          (zfaces uniform_faces) (phi_of [10; 20; 30; 40])
          (Literal 0) (Literal 0) false CDS CV_Direction.Z = Ok v
        /\ convex_weighting
             (lambf_of (((1 # 4) + (1 # 2)) / 2) (((1 # 2) + (3 # 4)) / 2)
                (1 # 2)) 20 30 v).
Proof.
  split; [repeat split; try reflexivity; discriminate|].
  apply (central_value_convex 3 (izfaces uniform_faces)
           (znodes uniform_faces) (zfaces uniform_faces)
           (phi_of [10; 20; 30; 40]) 0 (Literal 0) (Literal 0)
           CV_Direction.Z true
           (((1 # 4) + (1 # 2)) / 2) (((1 # 2) + (3 # 4)) / 2) (1 # 2)
           20 30);
    try reflexivity; discriminate.
Defined.

(** C1 (where the code departs from it).  On the axis with faces 0, 0.25, 1
    (nodes at 0.125 and 0.625) and node values 10, 20, the face at 0.25 is
    three times nearer to the upstream node than to the downstream one.
    Linear interpolation weighted by inverse distance gives 12.5 there; both
    routines return 17.5: the weight [lambf = (zd - zf) / (zd - zu) = 0.75]
    multiplies the value of the farther node, and the nearer node gets the
    smaller weight [1 - lambf = 0.25]. *)
Theorem central_weights_exchanged_on_stretched_axis :
  znodes stretched_faces = [(0 + (1 # 4)) / 2; ((1 # 4) + 1) / 2]
  /\ izfaces stretched_faces = [1; 2; 3]%Z
  /\ Qabs ((1 # 4) - (1 # 8)) < Qabs ((5 # 8) - (1 # 4))
  /\ lambf_of (1 # 8) (5 # 8) (1 # 4) == 3 # 4
  /\ returns_expr
       (_interpolate_channel 2 (izfaces stretched_faces)
          (znodes stretched_faces) (zfaces stretched_faces)
          (phi_of [10; 20]) 0 CDS false) (35 # 2)
  /\ returns_num
       (_interpolate_2D 2 (izfaces stretched_faces)
          (znodes stretched_faces) (zfaces stretched_faces)
          (phi_of [10; 20]) (Literal 0) (Literal 0) false CDS
          CV_Direction.Z) (35 # 2)
  /\ inverse_distance_interpolation (1 # 8) (5 # 8) (1 # 4) 10 20 == 25 # 2
  /\ ~ 35 # 2 == 25 # 2.
Proof.
  repeat split; try reflexivity; try discriminate;
    eexists; split; reflexivity.
Qed.

(** At every face that is strictly between its two nodes and nearer to the
    upstream one, the upstream node gets the smaller weight. *)
Lemma nearer_node_gets_smaller_weight (zu zd zf : Q) :
  zu < zf -> zf < zd ->
  zf - zu < zd - zf ->
  1 - lambf_of zu zd zf < lambf_of zu zd zf.
Proof.
  intros H1 H2 H3.
  pose proof (lambf_times zu zd zf ltac:(lra)) as E.
  set (lam := lambf_of zu zd zf) in *. nra.
Qed.

(** The same exchange at the ends of the uniform axis, for node values
    100, 120, 140, 160 taken from a straight line (90 at the first face, 170
    at the last face): the value extrapolated by [_interpolate_2D] at the
    first face and by [_interpolate_channel] at the outlet face is 130. *)
Example central_extrapolation_exchanged :
  returns_num
    (_interpolate_2D 1 (izfaces uniform_faces) (znodes uniform_faces)
       (zfaces uniform_faces) (phi_of [100; 120; 140; 160])
       (Sentinel EXTRAPOLATE) (Sentinel EXTRAPOLATE) false CDS
       CV_Direction.Z) 130
  /\ returns_expr
       (_interpolate_channel 5 (izfaces uniform_faces)
          (znodes uniform_faces) (zfaces uniform_faces)
          (phi_of [100; 120; 140; 160]) 0 CDS false) 130.
Proof. split; eexists; split; reflexivity. Qed.

(** For a face strictly between its two nodes, the CDS value of the code is
    the inverse-distance interpolation with the two node values exchanged. *)
Lemma cds_value_is_exchanged_interpolation (zu zd zf pu pd : Q) :
  zu < zf -> zf < zd ->
  cds_value zu zd zf pu pd
  == inverse_distance_interpolation zu zd zf pd pu.
Proof.
  intros H1 H2. unfold cds_value, lambf_of, inverse_distance_interpolation.
  rewrite (Qabs_pos (zf - zu)), (Qabs_pos (zd - zf)) by lra.
  field. repeat split; lra.
Qed.

(** ** Axes built from increasing faces *)

Lemma Set_at_nth {A : Type} (s : list A) (i : Z) (d : A) :
  (1 <= i <= Set_len s)%Z ->
  Set_at s i = Ok (nth (Z.to_nat (i - 1)) s d).
Proof.
  intros [H1 H2]. unfold Set_at, Set_nth, Set_len in *.
  apply Z.leb_le in H1 as E. rewrite E.
  rewrite (nth_error_nth' s d) by lia. reflexivity.
Qed.

Lemma Set_at_index_range (n : nat) (i : Z) :
  (1 <= i <= Z.of_nat n)%Z -> Set_at (index_range n) i = Ok i.
Proof.
  intros H. unfold index_range.
  rewrite (Set_at_nth _ i 0%Z)
    by (unfold Set_len; rewrite length_map, length_seq; lia).
  f_equal.
  rewrite (nth_indep _ 0%Z (Z.of_nat 0))
    by (rewrite length_map, length_seq; lia).
  rewrite map_nth, seq_nth by lia. lia.
Qed.

Lemma Set_init_aux_fresh (seen l : list Q) :
  increasing l ->
  Forall (fun x => Forall (fun s => s < x) seen) l ->
  Set_init_aux seen l = l.
Proof.
  intros Hs. revert seen.
  induction Hs as [|x t Hs IH Hx]; intros seen Hseen; [reflexivity|].
  inversion Hseen as [|? ? Hx_seen Ht_seen]; subst. simpl.
  assert (E : existsb (Qeq_bool x) seen = false).
  { apply not_true_is_false. intros E.
    apply existsb_exists in E as (s & Hin & Hq).
    apply Qeq_bool_iff in Hq.
    rewrite Forall_forall in Hx_seen. specialize (Hx_seen s Hin). lra. }
  rewrite E. f_equal. apply IH.
  rewrite Forall_forall in *. intros y Hy. constructor.
  - now apply Hx.
  - now apply Ht_seen.
Qed.

Lemma Set_init_increasing (l : list Q) : increasing l -> Set_init l = l.
Proof.
  intros H. apply Set_init_aux_fresh; [exact H|].
  apply Forall_forall. intros; constructor.
Qed.





Section BuiltAxis.
Variable fs : list Q.
Hypothesis fs_increasing : increasing fs.

Lemma zfaces_built : zfaces fs = fs.
Proof. now apply Set_init_increasing. Qed.







End BuiltAxis.

(** With a single cell (two faces, one node) there is no node two upstream
    of the outlet face, and the CDS branch stops on the node lookup. *)
Example central_outlet_single_cell :
  _interpolate_channel 2 (izfaces [0; 1]) (znodes [0; 1]) (zfaces [0; 1])
    (phi_of [10]) 0 CDS false = Raise IndexError
  /\ _interpolate_channel 1 (izfaces [0; 1]) (znodes [0; 1]) (zfaces [0; 1])
       (phi_of [10]) 0 CDS true = Raise IndexError.
Proof. split; reflexivity. Qed.

(** On any axis with faces [0, a, 1], [0 < a < 1], UDS and positive flow:
    the inlet face gets [phi_inlet], the other two faces the value of their
    upstream node. *)
Example upwind_three_faces (a p1 p2 phi_inlet : Q) :
  0 < a -> a < 1 ->
  let run iz :=
    _interpolate_channel iz (izfaces [0; a; 1]) (znodes [0; a; 1])
      (zfaces [0; a; 1]) (phi_of [p1; p2]) phi_inlet UDS false in
  run 1%Z = Ok (Expr phi_inlet)
  /\ run 2%Z = Ok (Expr p1)
  /\ run 3%Z = Ok (Expr p2).
Proof.
  intros H0 H1 run. subst run.
  assert (Hs : increasing [0; a; 1]).
  { repeat constructor; trivial. }
  unfold izfaces. rewrite (zfaces_built _ Hs).
  repeat split; reflexivity.
Qed.

(** * Cell sizes and the outlet *)

Lemma Set_at_beyond {A : Type} (s : list A) (i : Z) :
  (Set_len s < i)%Z -> Set_at s i = Raise IndexError.
Proof.
  intros H. unfold Set_at, Set_nth, Set_len in *.
  assert (E : (1 <=? i)%Z = true) by (apply Z.leb_le; lia).
  rewrite E.
  destruct (nth_error s (Z.to_nat (i - 1))) eqn:N; [|reflexivity].
  assert (Hlt : (Z.to_nat (i - 1) < List.length s)%nat)
    by (apply nth_error_Some; congruence).
  lia.
Qed.

Lemma dz_at (fs : list Q) (iz : Z) :
  (1 <= iz <= Set_len fs - 1)%Z ->
  dz fs iz
  = Ok (nth (Z.to_nat iz) fs 0 - nth (Z.to_nat (iz - 1)) fs 0).
Proof.
  intros H. unfold dz, bind, ret.
  rewrite (Set_at_nth fs (iz + 1) 0), (Set_at_nth fs iz 0) by lia.
  replace (iz + 1 - 1)%Z with iz by lia. reflexivity.
Qed.

(** For a non-negative index, [dz] answers exactly on the node indices
    [1 .. len(zfaces) - 1], with the difference of the two faces; on every
    other index it raises [IndexError]. *)
Theorem dz_defined_on_node_indices (fs : list Q) (iz : Z) :
  (0 <= iz)%Z ->
  dz fs iz
  = if ((1 <=? iz) && (iz <=? Set_len fs - 1))%Z
    then Ok (nth (Z.to_nat iz) fs 0 - nth (Z.to_nat (iz - 1)) fs 0)
    else Raise IndexError.
Proof.
  intros H0.
  destruct (1 <=? iz)%Z eqn:E1; simpl.
  - apply Z.leb_le in E1.
    destruct (iz <=? Set_len fs - 1)%Z eqn:E2.
    + apply Z.leb_le in E2. apply dz_at. lia.
    + apply Z.leb_gt in E2. unfold dz, bind.
      rewrite Set_at_beyond by lia. reflexivity.
  - apply Z.leb_gt in E1. assert (iz = 0)%Z as -> by lia.
    destruct fs; reflexivity.
Qed.

Lemma dz_defined_on_node_indices_witness :
  (0 <= 5)%Z
  /\ dz uniform_faces 4 = Ok (1 - (3 # 4))
  /\ dz uniform_faces 5 = Raise IndexError.
Proof.
  split; [lia|]. split.
  - exact (dz_defined_on_node_indices uniform_faces 4 ltac:(lia)).
  - exact (dz_defined_on_node_indices uniform_faces 5 ltac:(lia)).
Defined.


Lemma index_range_first (n : nat) :
  (1 <= n)%nat -> Set_first (index_range n) = Ok 1%Z.
Proof. intros H. apply Set_at_index_range. lia. Qed.

Lemma index_range_last (n : nat) :
  (1 <= n)%nat -> Set_last (index_range n) = Ok (Z.of_nat n).
Proof.
  intros H. unfold Set_last.
  replace (Set_len (index_range n)) with (Z.of_nat n)
    by (unfold Set_len, index_range; now rewrite length_map, length_seq).
  apply Set_at_index_range. lia.
Qed.



(** * Further properties of [_interpolate_channel] *)

(** With an empty face set both routines stop on [ifaces.first()] with
    [IndexError], whatever the other arguments are ([_interpolate_2D] once
    past its scheme check). *)
Theorem interpolate_empty_face_set
    (i : Z) (nodes faces : list Q) (phi_func : Z -> res Q) (phi_inlet : Q)
    (method : CV_Interpolation) (oposite_flow : bool) (b0 b1 : bound)
    (derivative : bool) (direction : CV_Direction.t) :
  _interpolate_channel i [] nodes faces phi_func phi_inlet method
    oposite_flow = Raise IndexError
  /\ _interpolate_2D i [] nodes faces phi_func b0 b1 derivative CDS
       direction = Raise IndexError.
Proof.
  split.
  - unfold _interpolate_channel. destruct oposite_flow; reflexivity.
  - reflexivity.
Qed.

(** * Further properties of [_interpolate_2D] *)

(** With the CDS scheme and a non-empty face set, every call either returns
    a literal bound (at the first face the low one, at the last face the
    high one), or runs the closing computation on the reference nodes of one
    of the four windows. *)
Theorem interpolate_2D_cases
    (ic : Z) (ifaces : list Z) (nodes faces : list Q)
    (phi_func : Z -> res Q) (b0 b1 : bound) (derivative : bool)
    (direction : CV_Direction.t) :
  ifaces <> [] ->
  (exists v,
     _interpolate_2D ic ifaces nodes faces phi_func b0 b1 derivative CDS
       direction = Ok v
     /\ ((Set_first ifaces = Ok ic /\ b0 = Literal v)
         \/ (Set_last ifaces = Ok ic /\ b1 = Literal v)))
  \/ (exists icu icd,
        window2D ifaces b0 b1 ic icu icd
        /\ _interpolate_2D ic ifaces nodes faces phi_func b0 b1 derivative
             CDS direction
           = cds_from_window nodes faces phi_func derivative ic icu icd).
Proof.
  intros Hne.
  destruct (window2D_or_literal ifaces b0 b1 ic Hne)
    as [[v [[Hf ->] | (Hl & -> & Hlo)]] | (icu & icd & W)].
  - left. exists v. split; [|now left].
    unfold _interpolate_2D, bind, ret. simpl.
    rewrite Hf, Z.eqb_refl. reflexivity.
  - left. exists v. split; [|now right].
    unfold _interpolate_2D, bind, ret. simpl.
    destruct (last_ok_first_ok ifaces ic Hl) as [f0 Ef].
    rewrite Ef, Hl, Z.eqb_refl.
    destruct Hlo as [Hf | [s ->]].
    + rewrite (eqb_false_of_not_ok _ ic f0 Ef Hf). destruct b0; reflexivity.
    + destruct (ic =? f0)%Z; reflexivity.
  - right. exists icu, icd. split; [exact W|].
    now apply interpolate_2D_window.
Qed.

Lemma interpolate_2D_cases_witness :
  izfaces uniform_faces <> []
  /\ ((exists v,
         _interpolate_2D 5 (izfaces uniform_faces) (znodes uniform_faces)
           (zfaces uniform_faces) (phi_of [10; 20; 30; 40])
           (Sentinel EXTRAPOLATE) (Literal 9) true CDS CV_Direction.X
         = Ok v
         /\ ((Set_first (izfaces uniform_faces) = Ok 5%Z
              /\ Sentinel EXTRAPOLATE = Literal v)
             \/ (Set_last (izfaces uniform_faces) = Ok 5%Z
                 /\ Literal 9 = Literal v)))
      \/ (exists icu icd,
            window2D (izfaces uniform_faces) (Sentinel EXTRAPOLATE)
              (Literal 9) 5 icu icd
            /\ _interpolate_2D 5 (izfaces uniform_faces)
                 (znodes uniform_faces) (zfaces uniform_faces)
                 (phi_of [10; 20; 30; 40]) (Sentinel EXTRAPOLATE)
                 (Literal 9) true CDS CV_Direction.X
               = cds_from_window (znodes uniform_faces)
                   (zfaces uniform_faces) (phi_of [10; 20; 30; 40]) true
                   5 icu icd)).
Proof.
  assert (Hne : izfaces uniform_faces <> []) by discriminate.
  split; [exact Hne|].
  exact (interpolate_2D_cases 5 (izfaces uniform_faces)
           (znodes uniform_faces) (zfaces uniform_faces)
           (phi_of [10; 20; 30; 40]) (Sentinel EXTRAPOLATE) (Literal 9)
           true CV_Direction.X Hne).
Defined.

Lemma cds_window_slope
    (nodes faces : list Q) (phi_func : Z -> res Q)
    (ic icu icd : Z) (cu cd pu pd : Q) :
  Set_at nodes icu = Ok cu ->
  Set_at nodes icd = Ok cd ->
  ~ cd == cu ->
  phi_func icu = Ok pu ->
  phi_func icd = Ok pd ->
  cds_from_window nodes faces phi_func true ic icu icd
  = Ok ((pd - pu) / (cd - cu)).
Proof.
  intros Hu Hd Hz Hpu Hpd. unfold cds_from_window, bind. simpl.
  rewrite Hu, Hd, Hpd, Hpu. apply pydiv_ok. lra.
Qed.

(** Where the two reference nodes of a face carry the same value, at
    different coordinates, [_interpolate_2D] in derivative mode returns the
    slope 0, on every window. *)
Theorem interpolate_2D_derivative_of_constant
    (ic : Z) (ifaces : list Z) (nodes faces : list Q)
    (phi_func : Z -> res Q) (b0 b1 : bound) (direction : CV_Direction.t)
    (icu icd : Z) (cu cd c : Q) :
  window2D ifaces b0 b1 ic icu icd ->
  Set_at nodes icu = Ok cu ->
  Set_at nodes icd = Ok cd ->
  ~ cd == cu ->
  phi_func icu = Ok c ->
  phi_func icd = Ok c ->
  _interpolate_2D ic ifaces nodes faces phi_func b0 b1 true CDS direction
  = Ok ((c - c) / (cd - cu))
  /\ (c - c) / (cd - cu) == 0.
Proof.
  intros W Hu Hd Hz Hpu Hpd. split.
  - rewrite (interpolate_2D_window _ _ _ _ _ _ _ _ _ _ _ W).
    now apply cds_window_slope.
  - field. lra.
Qed.

Lemma interpolate_2D_derivative_of_constant_witness :
  (window2D (izfaces uniform_faces) (Sentinel EXTRAPOLATE) (Literal 0)
     1 2 1
   /\ ~ (0 + (1 # 4)) / 2 == ((1 # 4) + (1 # 2)) / 2)
  /\ _interpolate_2D 1 (izfaces uniform_faces) (znodes uniform_faces)
       (zfaces uniform_faces) (phi_of [7; 7; 7; 7])
       (Sentinel EXTRAPOLATE) (Literal 0) true CDS CV_Direction.Z
     = Ok ((7 - 7) / ((0 + (1 # 4)) / 2 - ((1 # 4) + (1 # 2)) / 2))
  /\ (7 - 7) / ((0 + (1 # 4)) / 2 - ((1 # 4) + (1 # 2)) / 2) == 0.
Proof.
  assert (W : window2D (izfaces uniform_faces) (Sentinel EXTRAPOLATE)
                (Literal 0) 1 2 1).
  { apply (window_first _ _ _ 1%Z EXTRAPOLATE);
      [reflexivity | discriminate | reflexivity]. }
  assert (Hz : ~ (0 + (1 # 4)) / 2 == ((1 # 4) + (1 # 2)) / 2)
    by discriminate.
  split; [split; assumption|].
  exact (interpolate_2D_derivative_of_constant 1 (izfaces uniform_faces)
           (znodes uniform_faces) (zfaces uniform_faces)
           (phi_of [7; 7; 7; 7]) (Sentinel EXTRAPOLATE) (Literal 0)
           CV_Direction.Z 2 1
           (((1 # 4) + (1 # 2)) / 2) ((0 + (1 # 4)) / 2) 7
           W eq_refl eq_refl Hz eq_refl eq_refl).
Defined.

(** * Temperature terms *)









(** Node indices exist only on an axis with at least two faces. *)
Lemma nodes_need_two_faces (fs : list Q) (n : Z) :
  Set_first (iznodes fs) = Ok n -> (2 <= List.length (zfaces fs))%nat.
Proof.
  unfold iznodes, znodes. intros H.
  destruct (zfaces fs) as [|a [|b t]]; simpl in *; try discriminate. lia.
Qed.

(** At the two end faces [temperature_zfaces] is the temperature of the
    adjacent node: at the first face that of the first node, at the last
    face that of the last node.  Nothing is extrapolated there. *)
Theorem temperature_zfaces_end_faces
    (fs : list Q) (temperature : Z -> res Q) (n1 nl : Z) (t1 tl : Q) :
  Set_first (iznodes fs) = Ok n1 ->
  Set_last (iznodes fs) = Ok nl ->
  temperature n1 = Ok t1 ->
  temperature nl = Ok tl ->
  exists izf izl,
    Set_first (izfaces fs) = Ok izf
    /\ Set_last (izfaces fs) = Ok izl
    /\ temperature_zfaces fs temperature izf = Ok t1
    /\ temperature_zfaces fs temperature izl = Ok tl.
Proof.
  intros Hn1 Hnl Ht1 Htl.
  pose proof (nodes_need_two_faces fs n1 Hn1) as HF.
  assert (E1 : Set_first (izfaces fs) = Ok 1%Z)
    by (apply index_range_first; lia).
  assert (E2 : Set_last (izfaces fs)
               = Ok (Z.of_nat (List.length (zfaces fs))))
    by (apply index_range_last; lia).
  exists 1%Z, (Z.of_nat (List.length (zfaces fs))).
  split; [exact E1|]. split; [exact E2|].
  unfold temperature_zfaces, bind. rewrite Hn1, Ht1, Hnl, Htl.
  unfold _interpolate_2D, bind, ret. simpl. rewrite E1, E2.
  split; [reflexivity|].
  assert (B : (Z.of_nat (List.length (zfaces fs)) =? 1)%Z = false)
    by (apply Z.eqb_neq; lia).
  rewrite B, Z.eqb_refl. reflexivity.
Qed.

Lemma temperature_zfaces_end_faces_witness :
  (Set_first (iznodes stretched_faces) = Ok 1%Z
   /\ Set_last (iznodes stretched_faces) = Ok 2%Z
   /\ phi_of [300; 310] 1 = Ok 300
   /\ phi_of [300; 310] 2 = Ok 310)
  /\ exists izf izl,
       Set_first (izfaces stretched_faces) = Ok izf
       /\ Set_last (izfaces stretched_faces) = Ok izl
       /\ temperature_zfaces stretched_faces (phi_of [300; 310]) izf
          = Ok 300
       /\ temperature_zfaces stretched_faces (phi_of [300; 310]) izl
          = Ok 310.
Proof.
  split; [repeat split; reflexivity|].
  exact (temperature_zfaces_end_faces stretched_faces (phi_of [300; 310])
           1 2 300 310 eq_refl eq_refl eq_refl eq_refl).
Defined.

(** * [contour_grid_data] *)

Lemma list_assign_ok {A : Type} (l : list A) :
  forall (i : nat) (x : A),
    (i < List.length l)%nat ->
    list_assign l i x = Done (firstn i l ++ x :: skipn (S i) l).
Proof.
  induction l as [|h t IH]; intros i x Hi; simpl in *; [lia|].
  destruct i as [|j]; [reflexivity|].
  rewrite IH by lia. reflexivity.
Qed.

Lemma assigned_length {A : Type} (l : list A) (i : nat) (x : A) :
  (i < List.length l)%nat ->
  List.length (firstn i l ++ x :: skipn (S i) l) = List.length l.
Proof.
  intros Hi. rewrite length_app, length_firstn.
  change (List.length (x :: skipn (S i) l))
    with (S (List.length (skipn (S i) l))).
  rewrite length_skipn. lia.
Qed.

Lemma assigned_firstn {A : Type} (l : list A) (i : nat) (x : A) :
  (i < List.length l)%nat ->
  firstn (S i) (firstn i l ++ x :: skipn (S i) l) = firstn i l ++ [x].
Proof.
  intros Hi.
  rewrite firstn_app, length_firstn.
  replace (S i - Nat.min i (List.length l))%nat with 1%nat by lia.
  rewrite firstn_all2 by (rewrite length_firstn; lia).
  reflexivity.
Qed.

Lemma dict_get_set {V : Type} (d : dict V) (k : nat) (v : V) :
  dict_get (dict_set d k v) k = Done v.
Proof.
  induction d as [|[k' v'] rest IH]; simpl.
  - now rewrite Nat.eqb_refl.
  - destruct (Nat.eqb k k') eqn:E; simpl; rewrite E; [reflexivity | exact IH].
Qed.

Lemma dict_set_set {V : Type} (d : dict V) (k : nat) (v v' : V) :
  dict_set (dict_set d k v) k v' = dict_set d k v'.
Proof.
  induction d as [|[k' u] rest IH]; simpl.
  - now rewrite Nat.eqb_refl.
  - destruct (Nat.eqb k k') eqn:E; simpl; rewrite E; [reflexivity|].
    now rewrite IH.
Qed.

Lemma dict_set_new {V : Type} (d : dict V) (k : nat) (v : V) :
  Forall (fun p => (fst p < k)%nat) d ->
  dict_set d k v = d ++ [(k, v)].
Proof.
  induction 1 as [|[k' u] rest Hlt _ IH]; simpl; [reflexivity|].
  simpl in Hlt.
  assert (E : Nat.eqb k k' = false) by (apply Nat.eqb_neq; lia).
  now rewrite E, IH.
Qed.

Lemma store_row_ok (D : dict grid) (it iz : nat) (g : grid)
    (data : list cell) :
  (iz < List.length g)%nat ->
  store_row (dict_set D it g) it iz data
  = Done (dict_set D it (firstn iz g ++ Some data :: skipn (S iz) g)).
Proof.
  intros Hi. unfold store_row, obind.
  rewrite dict_get_set, list_assign_ok by exact Hi.
  now rewrite dict_set_set.
Qed.

Section ContourLoops.
Variable var : Q -> Z -> Z -> outcome Q.
Variable w : Q -> Z -> Z -> Q.

Lemma contour_inner_loop (t z : Q) (iz : nat) (xs : list Q) :
  forall (i : nat) (b : buffers),
    List.length (data_z b) = (i + List.length xs)%nat ->
    List.length (data_x b) = (i + List.length xs)%nat ->
    List.length (data_w b) = (i + List.length xs)%nat ->
    (forall ix, (i <= ix < i + List.length xs)%nat ->
       var t (Z.of_nat ix + 1)%Z (Z.of_nat iz + 1)%Z
       = Done (w t (Z.of_nat ix + 1)%Z (Z.of_nat iz + 1)%Z)) ->
    for_enumerate (contour_body_x var t z iz) i xs b
    = Done (mk_buffers
              (firstn i (data_z b) ++ repeat (Some z) (List.length xs))
              (firstn i (data_x b) ++ map Some xs)
              (firstn i (data_w b)
               ++ map (fun ix => Some (w t (Z.of_nat ix + 1)%Z
                                         (Z.of_nat iz + 1)%Z))
                    (seq i (List.length xs)))).
Proof.
  induction xs as [|x xs IH]; intros i b Lz Lx Lw Hv; simpl in *.
  - rewrite !app_nil_r, !firstn_all2 by lia. now destruct b.
  - unfold contour_body_x at 1, obind at 1.
    rewrite (list_assign_ok (data_z b)) by lia.
    unfold obind at 1. rewrite (list_assign_ok (data_x b)) by lia.
    unfold obind at 1. rewrite Hv by lia.
    unfold obind at 1. rewrite (list_assign_ok (data_w b)) by lia.
    unfold obind at 1.
    rewrite IH; cbn [data_z data_x data_w].
    + rewrite !assigned_firstn by lia.
      rewrite <- !app_assoc. reflexivity.
    + rewrite assigned_length; lia.
    + rewrite assigned_length; lia.
    + rewrite assigned_length; lia.
    + intros ix Hix. apply Hv. lia.
Qed.

Lemma contour_row_loop (xnodes : list Q) (it : nat) (t : Q)
    (Z0 X0 H0 : dict grid) (zs : list Q) :
  forall (iz : nat) (b : buffers) (gz gx gh : grid),
    List.length (data_z b) = List.length xnodes ->
    List.length (data_x b) = List.length xnodes ->
    List.length (data_w b) = List.length xnodes ->
    List.length gz = (iz + List.length zs)%nat ->
    List.length gx = (iz + List.length zs)%nat ->
    List.length gh = (iz + List.length zs)%nat ->
    (forall ix k, (ix < List.length xnodes)%nat ->
       (iz <= k < iz + List.length zs)%nat ->
       var t (Z.of_nat ix + 1)%Z (Z.of_nat k + 1)%Z
       = Done (w t (Z.of_nat ix + 1)%Z (Z.of_nat k + 1)%Z)) ->
    exists b',
      List.length (data_z b') = List.length xnodes
      /\ List.length (data_x b') = List.length xnodes
      /\ List.length (data_w b') = List.length xnodes
      /\ for_enumerate (contour_body_z var xnodes it t) iz zs
           (b, mk_tables (dict_set Z0 it gz) (dict_set X0 it gx)
                 (dict_set H0 it gh))
         = Done (b',
                 mk_tables
                   (dict_set Z0 it
                      (firstn iz gz ++ map (row_of_z xnodes) zs))
                   (dict_set X0 it
                      (firstn iz gx ++ map (row_of_x xnodes) zs))
                   (dict_set H0 it
                      (firstn iz gh
                       ++ map (fun k => Some (hg_row w t k xnodes))
                            (seq iz (List.length zs))))).
Proof.
  induction zs as [|z zs IH]; intros iz b gz gx gh Bz Bx Bw Lz Lx Lh Hv;
    simpl in *.
  - exists b. rewrite !app_nil_r, !firstn_all2 by lia. now repeat split.
  - unfold obind at 1.
    rewrite (contour_inner_loop t z iz xnodes 0 b) by
      (simpl; trivial; intros ix Hix; apply Hv; lia).
    simpl firstn. simpl app. cbv beta iota.
    unfold obind at 1. simpl data_z. simpl zg.
    rewrite store_row_ok by lia. unfold obind at 1. simpl xg. simpl data_x.
    rewrite store_row_ok by lia. unfold obind at 1. simpl hg. simpl data_w.
    rewrite store_row_ok by lia. unfold obind at 1.
    match goal with
    | |- context [for_enumerate _ (S iz) zs (?b1, _)] =>
        destruct (IH (S iz) b1
                    (firstn iz gz ++ row_of_z xnodes z :: skipn (S iz) gz)
                    (firstn iz gx ++ row_of_x xnodes z :: skipn (S iz) gx)
                    (firstn iz gh ++ Some (hg_row w t iz xnodes)
                                  :: skipn (S iz) gh))
          as (b' & Bz' & Bx' & Bw' & E)
    end; cbn [data_z data_x data_w].
    + apply repeat_length.
    + apply length_map.
    + now rewrite length_map, length_seq.
    + rewrite assigned_length; lia.
    + rewrite assigned_length; lia.
    + rewrite assigned_length; lia.
    + intros ix k Hix Hk. apply Hv; lia.
    + exists b'. repeat split; trivial.
      refine (eq_trans E _).
      rewrite !assigned_firstn by lia.
      rewrite <- !app_assoc. reflexivity.
Qed.

Lemma contour_time_loop (xnodes znodes : list Q) (ts : list Q) :
  forall (it : nat) (b : buffers) (Dz Dx Dh : dict grid),
    List.length (data_z b) = List.length xnodes ->
    List.length (data_x b) = List.length xnodes ->
    List.length (data_w b) = List.length xnodes ->
    Forall (fun p => (fst p < it)%nat) Dz ->
    Forall (fun p => (fst p < it)%nat) Dx ->
    Forall (fun p => (fst p < it)%nat) Dh ->
    (forall t ix k, In t ts -> (ix < List.length xnodes)%nat ->
       (k < List.length znodes)%nat ->
       var t (Z.of_nat ix + 1)%Z (Z.of_nat k + 1)%Z
       = Done (w t (Z.of_nat ix + 1)%Z (Z.of_nat k + 1)%Z)) ->
    exists b',
      for_enumerate (contour_body_t var xnodes znodes) it ts
        (b, mk_tables Dz Dx Dh)
      = Done (b',
              mk_tables
                (Dz ++ map (fun '(k, _) => (k, grid_z xnodes znodes))
                         (enumerate_from it ts))
                (Dx ++ map (fun '(k, _) => (k, grid_x xnodes znodes))
                         (enumerate_from it ts))
                (Dh ++ map (fun '(k, t) => (k, grid_h w xnodes znodes t))
                         (enumerate_from it ts))).
Proof.
  induction ts as [|t ts IH]; intros it b Dz Dx Dh Bz Bx Bw Kz Kx Kh Hv.
  - exists b. simpl. now rewrite !app_nil_r.
  - simpl for_enumerate. unfold contour_body_t at 1. simpl zg. simpl xg.
    simpl hg. cbv zeta.
    destruct (contour_row_loop xnodes it t Dz Dx Dh znodes 0 b
                (repeat None (List.length znodes))
                (repeat None (List.length znodes))
                (repeat None (List.length znodes)))
      as (b1 & Bz1 & Bx1 & Bw1 & E); trivial;
      try (simpl; apply repeat_length).
    { intros ix k Hix Hk. apply Hv; [now left | lia | lia]. }
    rewrite E. unfold obind at 1. simpl firstn. simpl app.
    rewrite !dict_set_new by assumption.
    destruct (IH (S it) b1
                (Dz ++ [(it, grid_z xnodes znodes)])
                (Dx ++ [(it, grid_x xnodes znodes)])
                (Dh ++ [(it, grid_h w xnodes znodes t)]))
      as (b' & E'); trivial.
    + apply Forall_app. split.
      * eapply Forall_impl; [|exact Kz]. simpl. intros; lia.
      * repeat constructor.
    + apply Forall_app. split.
      * eapply Forall_impl; [|exact Kx]. simpl. intros; lia.
      * repeat constructor.
    + apply Forall_app. split.
      * eapply Forall_impl; [|exact Kh]. simpl. intros; lia.
      * repeat constructor.
    + intros t' ix k Hin. apply Hv. now right.
    + exists b'. refine (eq_trans E' _).
      unfold enumerate_from. cbn [List.length seq combine map].
      rewrite <- !app_assoc. reflexivity.
Qed.

End ContourLoops.

(** When [var] has a value at every index [(t, ix + 1, iz + 1)] met by the
    loops, [contour_grid_data] returns, for every time index [it], the grid
    of rows [zg[it][iz][ix] = znodes[iz]], [xg[it][iz][ix] = xnodes[ix]]
    and [hg[it][iz][ix] = var[time[it], ix + 1, iz + 1]]: reusing the three
    buffers leaves no stale entry in any row. *)
Theorem contour_grid_data_tables
    (var : Q -> Z -> Z -> outcome Q) (w : Q -> Z -> Z -> Q)
    (time xnodes znodes : list Q) :
  (forall t ix iz, In t time -> (ix < List.length xnodes)%nat ->
     (iz < List.length znodes)%nat ->
     var t (Z.of_nat ix + 1)%Z (Z.of_nat iz + 1)%Z
     = Done (w t (Z.of_nat ix + 1)%Z (Z.of_nat iz + 1)%Z)) ->
  contour_grid_data var time xnodes znodes
  = Done (zg_table time xnodes znodes, xg_table time xnodes znodes,
          hg_table w time xnodes znodes).
Proof.
  intros Hv. unfold contour_grid_data. cbv zeta.
  destruct (contour_time_loop var w xnodes znodes time 0
              (mk_buffers (repeat None (List.length xnodes))
                 (repeat None (List.length xnodes))
                 (repeat None (List.length xnodes))) [] [] [])
    as (b' & E); simpl; trivial; try apply repeat_length.
  rewrite E. reflexivity.
Qed.

Lemma contour_grid_data_tables_witness :
  (forall t ix iz, In t [0; 1 # 2] -> (ix < List.length [1 # 4; 3 # 4])%nat ->
     (iz < List.length [1 # 8; 3 # 8; 7 # 8])%nat ->
     (fun t i j => Done (t + inject_Z i * 10 + inject_Z j))
       t (Z.of_nat ix + 1)%Z (Z.of_nat iz + 1)%Z
     = Done ((fun t i j => t + inject_Z i * 10 + inject_Z j)
               t (Z.of_nat ix + 1)%Z (Z.of_nat iz + 1)%Z))
  /\ contour_grid_data
       (fun t i j => Done (t + inject_Z i * 10 + inject_Z j))
       [0; 1 # 2] [1 # 4; 3 # 4] [1 # 8; 3 # 8; 7 # 8]
     = Done (zg_table [0; 1 # 2] [1 # 4; 3 # 4] [1 # 8; 3 # 8; 7 # 8],
             xg_table [0; 1 # 2] [1 # 4; 3 # 4] [1 # 8; 3 # 8; 7 # 8],
             hg_table (fun t i j => t + inject_Z i * 10 + inject_Z j)
               [0; 1 # 2] [1 # 4; 3 # 4] [1 # 8; 3 # 8; 7 # 8]).
Proof.
  split; [intros; reflexivity|].
  apply (contour_grid_data_tables
           (fun t i j => Done (t + inject_Z i * 10 + inject_Z j))
           (fun t i j => t + inject_Z i * 10 + inject_Z j)
           [0; 1 # 2] [1 # 4; 3 # 4] [1 # 8; 3 # 8; 7 # 8]).
  intros; reflexivity.
Defined.

Lemma for_enumerate_Done_inv {A St : Type}
    (body : nat -> A -> St -> outcome St) (P : nat -> A -> Prop) :
  (forall i a s s', body i a s = Done s' -> P i a) ->
  forall (l : list A) (i : nat) (s s' : St),
    for_enumerate body i l s = Done s' ->
    forall k a, nth_error l k = Some a -> P (i + k)%nat a.
Proof.
  intros HP l. induction l as [|x l IH]; intros i s s' H k a Hk.
  - destruct k; discriminate.
  - simpl in H. unfold obind in H.
    destruct (body i x s) as [s1|e] eqn:B; [|discriminate].
    destruct k as [|k].
    + injection Hk as <-. replace (i + 0)%nat with i by lia.
      exact (HP i x s s1 B).
    + replace (i + S k)%nat with (S i + k)%nat by lia.
      exact (IH (S i) s1 s' H k a Hk).
Qed.

(** [contour_grid_data] returns tables only if [var] had a value at every
    index [(t, ix + 1, iz + 1)] with [t] in [time], [ix < len(xnodes)] and
    [iz < len(znodes)]: a missing value is never skipped or filled in. *)
Theorem contour_grid_data_reads_every_value
    (var : Q -> Z -> Z -> outcome Q) (time xnodes znodes : list Q)
    (r : dict grid * dict grid * dict grid) :
  contour_grid_data var time xnodes znodes = Done r ->
  forall t ix iz,
    In t time ->
    (ix < List.length xnodes)%nat ->
    (iz < List.length znodes)%nat ->
    exists v, var t (Z.of_nat ix + 1)%Z (Z.of_nat iz + 1)%Z = Done v.
Proof.
  unfold contour_grid_data. cbv zeta. intros H t ix iz Ht Hix Hiz.
  unfold obind in H.
  match type of H with
  | match ?c with _ => _ end = _ => destruct c as [s|e] eqn:Loop
  end; [|discriminate].
  clear H.
  destruct (In_nth_error _ _ Ht) as [kt Hkt].
  destruct (nth_error znodes iz) as [z|] eqn:Hkz;
    [|apply nth_error_None in Hkz; lia].
  destruct (nth_error xnodes ix) as [x|] eqn:Hkx;
    [|apply nth_error_None in Hkx; lia].
  refine (for_enumerate_Done_inv (contour_body_t var xnodes znodes)
            (fun _ t' => exists v,
               var t' (Z.of_nat ix + 1)%Z (Z.of_nat iz + 1)%Z = Done v)
            _ time 0 _ s Loop kt t Hkt).
  clear - Hkz Hkx. intros it t' [b tb] s' Ht'.
  unfold contour_body_t in Ht'.
  refine (for_enumerate_Done_inv (contour_body_z var xnodes it t')
            (fun k _ => forall k', k' = k -> exists v,
               var t' (Z.of_nat ix + 1)%Z (Z.of_nat k' + 1)%Z = Done v)
            _ znodes 0 _ s' Ht' iz z Hkz iz eq_refl).
  clear - Hkx. intros k z' [b tb] s' Hz k' ->.
  unfold contour_body_z, obind in Hz.
  match type of Hz with
  | match ?c with _ => _ end = _ => destruct c as [b1|e] eqn:Inner
  end; [|discriminate].
  clear Hz.
  refine (for_enumerate_Done_inv (contour_body_x var t' z' k)
            (fun j _ => forall j', j' = j -> exists v,
               var t' (Z.of_nat j' + 1)%Z (Z.of_nat k + 1)%Z = Done v)
            _ xnodes 0 b b1 Inner ix x Hkx ix eq_refl).
  clear. intros j x' b b' Hx j' ->.
  unfold contour_body_x, obind in Hx.
  destruct (list_assign (data_z b) j (Some z')); [|discriminate].
  destruct (list_assign (data_x b) j (Some x')); [|discriminate].
  destruct (var t' (Z.of_nat j + 1)%Z (Z.of_nat k + 1)%Z) as [v|];
    [|discriminate].
  now exists v.
Qed.

Lemma contour_grid_data_reads_every_value_witness :
  contour_grid_data (fun t i j => Done (t + inject_Z i * 10 + inject_Z j))
    [0; 1 # 2] [1 # 4; 3 # 4] [1 # 8; 3 # 8; 7 # 8]
  = Done (zg_table [0; 1 # 2] [1 # 4; 3 # 4] [1 # 8; 3 # 8; 7 # 8],
          xg_table [0; 1 # 2] [1 # 4; 3 # 4] [1 # 8; 3 # 8; 7 # 8],
          hg_table (fun t i j => t + inject_Z i * 10 + inject_Z j)
            [0; 1 # 2] [1 # 4; 3 # 4] [1 # 8; 3 # 8; 7 # 8])
  /\ exists v,
       (fun t i j => Done (t + inject_Z i * 10 + inject_Z j))
         (1 # 2) (Z.of_nat 1 + 1)%Z (Z.of_nat 2 + 1)%Z = Done v.
Proof.
  assert (H : contour_grid_data
                (fun t i j => Done (t + inject_Z i * 10 + inject_Z j))
                [0; 1 # 2] [1 # 4; 3 # 4] [1 # 8; 3 # 8; 7 # 8]
              = Done (zg_table [0; 1 # 2] [1 # 4; 3 # 4]
                        [1 # 8; 3 # 8; 7 # 8],
                      xg_table [0; 1 # 2] [1 # 4; 3 # 4]
                        [1 # 8; 3 # 8; 7 # 8],
                      hg_table
                        (fun t i j => t + inject_Z i * 10 + inject_Z j)
                        [0; 1 # 2] [1 # 4; 3 # 4] [1 # 8; 3 # 8; 7 # 8]))
    by reflexivity.
  split; [exact H|].
  apply (contour_grid_data_reads_every_value _ _ _ _ _ H (1 # 2) 1%nat
           2%nat).
  - right. now left.
  - simpl. lia.
  - simpl. lia.
Defined.

(** With no [x] node, [var] is never consulted: the call succeeds for every
    [var], and each time index gets one empty row per [z] node. *)
Theorem contour_grid_data_no_xnodes
    (var : Q -> Z -> Z -> outcome Q) (time znodes : list Q) :
  contour_grid_data var time [] znodes
  = Done (map (fun '(it, _) => (it, map (fun _ => Some []) znodes))
            (enumerate_from 0 time),
          map (fun '(it, _) => (it, map (fun _ => Some []) znodes))
            (enumerate_from 0 time),
          map (fun '(it, _) => (it, map (fun _ => Some []) znodes))
            (enumerate_from 0 time)).
Proof.
  unfold contour_grid_data. cbv zeta. cbn [List.length repeat].
  destruct (contour_time_loop var (fun _ _ _ => 0) [] znodes time 0
              (mk_buffers [] [] []) [] [] [])
    as (b' & E); trivial.
  { intros t ix k _ Hix. simpl in Hix. lia. }
  refine (eq_trans (f_equal (fun c => obind c _) E) _).
  unfold obind, grid_z, grid_x, grid_h, row_of_z, row_of_x, hg_row.
  cbn [List.length repeat map seq app zg xg hg].
  do 2 f_equal.
  apply map_ext. intros [k t]. f_equal.
  clear. generalize 0%nat.
  induction znodes as [|z zs IH]; intros n; simpl; [reflexivity|].
  now rewrite IH.
Qed.

(** * [stitch] and [plot_dynamic] *)

Lemma stitch_from_app (args : list stitch_arg) :
  forall (l l' : list Q),
    stitch_from l args = Done l' ->
    exists r, l' = l ++ r /\ forall l0, stitch_from l0 args = Done (l0 ++ r).
Proof.
  induction args as [|[ts | index f] rest IH]; intros l l' H; simpl in *.
  - injection H as <-. exists []. split; [now rewrite app_nil_r|].
    intros l0. now rewrite app_nil_r.
  - destruct (IH _ _ H) as (r & -> & Hr).
    exists (ts ++ r). split; [now rewrite app_assoc|].
    intros l0. rewrite Hr. now rewrite app_assoc.
  - unfold obind in *. destruct (values_of f index) as [xs|e]; [|discriminate].
    destruct (IH _ _ H) as (r & -> & Hr).
    exists (xs ++ r). split; [now rewrite app_assoc|].
    intros l0. rewrite Hr. now rewrite app_assoc.
Qed.

Lemma stitch_from_split (a b : list stitch_arg) :
  forall l la,
    stitch_from l a = Done la ->
    stitch_from l (a ++ b) = stitch_from la b.
Proof.
  induction a as [|[ts | index f] rest IH]; intros l la H; simpl in *.
  - now injection H as <-.
  - now apply IH.
  - unfold obind in *. destruct (values_of f index) as [xs|e]; [|discriminate].
    now apply IH.
Qed.

(** Stitching two argument lists one after the other gives the two
    stitched lists one after the other. *)
Theorem stitch_app (a b : list stitch_arg) (la lb : list Q) :
  stitch a = Done la ->
  stitch b = Done lb ->
  stitch (a ++ b) = Done (la ++ lb).
Proof.
  unfold stitch. intros Ha Hb.
  rewrite (stitch_from_split a b [] la Ha).
  destruct (stitch_from_app b [] lb Hb) as (r & E & Hr).
  simpl in E. subst r. apply Hr.
Qed.

Lemma stitch_app_witness :
  (stitch [TimeSet [0; 1]] = Done [0; 1]
   /\ stitch [Component [2; 3] (fun t => Done (t * t))] = Done [2 * 2; 3 * 3])
  /\ stitch ([TimeSet [0; 1]]
             ++ [Component [2; 3] (fun t => Done (t * t))])
     = Done ([0; 1] ++ [2 * 2; 3 * 3]).
Proof.
  split; [split; reflexivity|].
  apply (stitch_app [TimeSet [0; 1]]
           [Component [2; 3] (fun t => Done (t * t))]
           [0; 1] [2 * 2; 3 * 3]); reflexivity.
Defined.

Lemma values_of_length (f : Q -> outcome Q) (index : list Q) :
  forall xs, values_of f index = Done xs ->
             List.length xs = List.length index.
Proof.
  induction index as [|t rest IH]; intros xs H; simpl in *.
  - now injection H as <-.
  - unfold obind in H. destruct (f t); [|discriminate].
    destruct (values_of f rest) as [ys|]; [|discriminate].
    injection H as <-. simpl. now rewrite (IH ys).
Qed.

Lemma stitch_from_length (args : list stitch_arg) :
  forall l l',
    stitch_from l args = Done l' ->
    List.length l'
    = (List.length l + list_sum (map stitch_arg_size args))%nat.
Proof.
  induction args as [|[ts | index f] rest IH]; intros l l' H; simpl in *.
  - injection H as <-. lia.
  - rewrite (IH _ _ H), length_app. lia.
  - unfold obind in H. destruct (values_of f index) as [xs|] eqn:V;
      [|discriminate].
    rewrite (IH _ _ H), length_app, (values_of_length f index xs V). lia.
Qed.

(** The stitched list has one entry per member of every argument, so time
    sets and components indexed by them stitch to lists of the same
    length. *)
Theorem stitch_length (args : list stitch_arg) (l : list Q) :
  stitch args = Done l ->
  List.length l = list_sum (map stitch_arg_size args).
Proof.
  unfold stitch. intros H. now rewrite (stitch_from_length args [] l H).
Qed.

Lemma stitch_length_witness :
  stitch [TimeSet [0; 1]; Component [2; 3; 4] (fun t => Done (t * t))]
  = Done [0; 1; 2 * 2; 3 * 3; 4 * 4]
  /\ List.length [0; 1; 2 * 2; 3 * 3; 4 * 4]
     = list_sum
         (map stitch_arg_size
            [TimeSet [0; 1]; Component [2; 3; 4] (fun t => Done (t * t))]).
Proof.
  split; [reflexivity|].
  apply (stitch_length
           [TimeSet [0; 1]; Component [2; 3; 4] (fun t => Done (t * t))]
           [0; 1; 2 * 2; 3 * 3; 4 * 4]).
  reflexivity.
Defined.

Lemma convert_series_listed (time : list Q) (ys : list (list Q)) :
  convert_series time (map Listed ys) = Done ys.
Proof.
  induction ys as [|v ys IH]; simpl; [reflexivity|].
  unfold obind. now rewrite IH.
Qed.

(** [plot_dynamic] leaves only lists in [y]; called again on the list it
    left, it looks up no value, leaves the list as it is and makes the same
    calls to [pyplot]. *)
Theorem plot_dynamic_again
    (time : list Q) (y y' : list series) (ylabel xlabel : string)
    (title : option string) (legend : option (list string))
    (calls : list plt_call) :
  plot_dynamic time y ylabel xlabel title legend = Done (y', calls) ->
  (exists vals, y' = map Listed vals)
  /\ plot_dynamic time y' ylabel xlabel title legend = Done (y', calls).
Proof.
  unfold plot_dynamic, obind. intros H.
  destruct (convert_series time y) as [vals|]; [|discriminate].
  injection H as <- <-. split; [now exists vals|].
  now rewrite convert_series_listed.
Qed.

Lemma plot_dynamic_again_witness :
  plot_dynamic [0; 1] [Indexed (fun t => Done (t + 5)); Listed [7; 8]]
    "y" "time (s)" None (Some ["a"; "b"]%string)
  = Done ([Listed [0 + 5; 1 + 5]; Listed [7; 8]],
          [plt_plot [0; 1] [0 + 5; 1 + 5]; plt_plot [0; 1] [7; 8];
           plt_legend ["a"; "b"]%string; plt_xlabel "time (s)";
           plt_ylabel "y"; plt_tight_layout; plt_show])
  /\ plot_dynamic [0; 1] [Listed [0 + 5; 1 + 5]; Listed [7; 8]]
       "y" "time (s)" None (Some ["a"; "b"]%string)
     = Done ([Listed [0 + 5; 1 + 5]; Listed [7; 8]],
             [plt_plot [0; 1] [0 + 5; 1 + 5]; plt_plot [0; 1] [7; 8];
              plt_legend ["a"; "b"]%string; plt_xlabel "time (s)";
              plt_ylabel "y"; plt_tight_layout; plt_show]).
Proof.
  split; [reflexivity|].
  apply (plot_dynamic_again [0; 1]
           [Indexed (fun t => Done (t + 5)); Listed [7; 8]]
           _ "y" "time (s)" None (Some ["a"; "b"]%string) _ eq_refl).
Defined.

Lemma convert_series_shape (time : list Q) (y : list series) :
  forall vals,
    convert_series time y = Done vals ->
    List.length vals = List.length y
    /\ forall i v,
         nth_error vals i = Some v ->
         match nth_error y i with
         | Some (Listed v0) => v = v0
         | Some (Indexed f) =>
             values_of f time = Done v
             /\ List.length v = List.length time
         | None => False
         end.
Proof.
  induction y as [|[v0 | f] rest IH]; intros vals H; simpl in *.
  - injection H as <-. split; [reflexivity|]. intros [|i] v E; discriminate.
  - unfold obind in H.
    destruct (convert_series time rest) as [vs|]; [|discriminate].
    injection H as <-. destruct (IH vs eq_refl) as [L Hn].
    split; [simpl; now rewrite L|].
    intros [|i] v E; simpl in *; [now injection E as <- | now apply Hn].
  - unfold obind in H.
    destruct (values_of f time) as [xs|] eqn:V; [|discriminate].
    destruct (convert_series time rest) as [vs|]; [|discriminate].
    injection H as <-. destruct (IH vs eq_refl) as [L Hn].
    split; [simpl; now rewrite L|].
    intros [|i] v E; simpl in *; [|now apply Hn].
    injection E as <-. split; [exact V|].
    now apply values_of_length with f.
Qed.

(** A successful [plot_dynamic] plots one series per entry of [y], in
    order: an entry that was a list as it was, any other entry as the list
    of its values over [time], which has one value per time point; that
    list also replaces the entry in [y]. *)
Theorem plot_dynamic_series
    (time : list Q) (y y' : list series) (ylabel xlabel : string)
    (title : option string) (legend : option (list string))
    (calls : list plt_call) :
  plot_dynamic time y ylabel xlabel title legend = Done (y', calls) ->
  List.length y' = List.length y
  /\ forall i,
       (i < List.length y)%nat ->
       exists v,
         nth_error y' i = Some (Listed v)
         /\ nth_error calls i = Some (plt_plot time v)
         /\ match nth_error y i with
            | Some (Listed v0) => v = v0
            | Some (Indexed f) =>
                values_of f time = Done v
                /\ List.length v = List.length time
            | None => False
            end.
Proof.
  unfold plot_dynamic, obind. intros H.
  destruct (convert_series time y) as [vals|] eqn:C; [|discriminate].
  injection H as <- <-.
  destruct (convert_series_shape time y vals C) as [L Hn].
  split; [now rewrite length_map|].
  intros i Hi.
  destruct (nth_error vals i) as [v|] eqn:E;
    [|apply nth_error_None in E; lia].
  exists v. split; [|split].
  - now rewrite nth_error_map, E.
  - rewrite nth_error_app1 by (rewrite length_map; lia).
    now rewrite nth_error_map, E.
  - now apply Hn.
Qed.

Lemma plot_dynamic_series_witness :
  plot_dynamic [0; 1] [Indexed (fun t => Done (t + 5)); Listed [7; 8]]
    "y" "time (s)" None (Some ["a"; "b"]%string)
  = Done ([Listed [0 + 5; 1 + 5]; Listed [7; 8]],
          [plt_plot [0; 1] [0 + 5; 1 + 5]; plt_plot [0; 1] [7; 8];
           plt_legend ["a"; "b"]%string; plt_xlabel "time (s)";
           plt_ylabel "y"; plt_tight_layout; plt_show])
  /\ List.length [Listed [0 + 5; 1 + 5]; Listed [7; 8]]
     = List.length [Indexed (fun t => Done (t + 5)); Listed [7; 8]].
Proof.
  split; [reflexivity|].
  apply (plot_dynamic_series [0; 1]
           [Indexed (fun t => Done (t + 5)); Listed [7; 8]]
           _ "y" "time (s)" None (Some ["a"; "b"]%string) _ eq_refl).
Defined.

(** * Divisions in the CDS branches *)

(** The members of a set are pairwise different numbers. *)
Lemma Set_init_aux_unseen (l seen : list Q) :
  Forall (fun y => existsb (Qeq_bool y) seen = false) (Set_init_aux seen l).
Proof.
  revert seen. induction l as [|x t IH]; intros seen; simpl.
  - constructor.
  - destruct (existsb (Qeq_bool x) seen) eqn:E.
    + apply IH.
    + constructor; [exact E|].
      eapply Forall_impl; [|apply (IH (x :: seen))].
      intros y Hy. simpl in Hy. now apply orb_false_elim in Hy.
Qed.

Lemma Set_init_aux_distinct (l seen : list Q) :
  StronglySorted (fun a b => Qeq_bool b a = false) (Set_init_aux seen l).
Proof.
  revert seen. induction l as [|x t IH]; intros seen; simpl.
  - constructor.
  - destruct (existsb (Qeq_bool x) seen).
    + apply IH.
    + constructor; [apply IH|].
      eapply Forall_impl; [|apply (Set_init_aux_unseen t (x :: seen))].
      intros y Hy. simpl in Hy. now apply orb_false_elim in Hy.
Qed.

Lemma StronglySorted_nth_error {A : Type} (R : A -> A -> Prop)
    (l : list A) (i j : nat) (a b : A) :
  StronglySorted R l -> (i < j)%nat ->
  nth_error l i = Some a -> nth_error l j = Some b -> R a b.
Proof.
  intros Hs. revert i j. induction Hs as [|x t Hs IH Hx]; intros i j Hij Ha Hb.
  - destruct i; discriminate.
  - destruct j as [|j]; [lia|]. simpl in Hb.
    destruct i as [|i]; simpl in Ha.
    + injection Ha as <-.
      rewrite Forall_forall in Hx. apply Hx.
      eapply nth_error_In; eassumption.
    + apply (IH i j); trivial. lia.
Qed.

Lemma Set_init_nth_error_distinct (l : list Q) (i j : nat) (a b : Q) :
  i <> j ->
  nth_error (Set_init l) i = Some a ->
  nth_error (Set_init l) j = Some b ->
  ~ a == b.
Proof.
  intros Hij Ha Hb E.
  pose proof (Set_init_aux_distinct l []) as Hs. fold (Set_init l) in Hs.
  destruct (Nat.lt_ge_cases i j) as [Hlt | Hge].
  - pose proof (StronglySorted_nth_error _ _ i j a b Hs Hlt Ha Hb) as H.
    simpl in H. apply Qeq_bool_neq in H. apply H. now symmetry.
  - assert (Hlt : (j < i)%nat) by lia.
    pose proof (StronglySorted_nth_error _ _ j i b a Hs Hlt Hb Ha) as H.
    simpl in H. apply Qeq_bool_neq in H. now apply H.
Qed.

(** [s.at(p)] and [s.at(p + 1)], when both answer, read two different
    positions of the set. *)
Lemma Set_at_consecutive {A : Type} (s : list A) (p : Z) (a b : A) :
  Set_at s p = Ok a -> Set_at s (p + 1) = Ok b ->
  exists i, nth_error s i = Some a /\ nth_error s (S i) = Some b.
Proof.
  unfold Set_at, Set_nth. intros Ha Hb.
  destruct (1 <=? p)%Z eqn:P1.
  - apply Z.leb_le in P1.
    assert (P2 : (1 <=? p + 1)%Z = true) by (apply Z.leb_le; lia).
    rewrite P2 in Hb.
    exists (Z.to_nat (p - 1)).
    replace (S (Z.to_nat (p - 1))) with (Z.to_nat (p + 1 - 1)) by lia.
    destruct (nth_error s (Z.to_nat (p - 1))); [|discriminate].
    destruct (nth_error s (Z.to_nat (p + 1 - 1))); [|discriminate].
    split; congruence.
  - apply Z.leb_gt in P1.
    destruct (p <? 0)%Z eqn:P0; [|discriminate].
    apply Z.ltb_lt in P0.
    destruct (p + Set_len s <? 0)%Z eqn:PL; [discriminate|].
    apply Z.ltb_ge in PL.
    destruct (1 <=? p + 1)%Z eqn:Q1; [apply Z.leb_le in Q1; lia|].
    destruct (p + 1 <? 0)%Z eqn:Q0; [|discriminate].
    destruct (p + 1 + Set_len s <? 0)%Z eqn:QL; [discriminate|].
    exists (Z.to_nat (p + Set_len s)).
    replace (S (Z.to_nat (p + Set_len s)))
      with (Z.to_nat (p + 1 + Set_len s)) by lia.
    destruct (nth_error s (Z.to_nat (p + Set_len s))); [|discriminate].
    destruct (nth_error s (Z.to_nat (p + 1 + Set_len s))); [|discriminate].
    split; congruence.
Qed.

Lemma Set_at_neighbours_differ (l : list Q) (p q : Z) (a b : Q) :
  (q = p + 1 \/ p = q + 1)%Z ->
  Set_at (Set_init l) p = Ok a -> Set_at (Set_init l) q = Ok b ->
  ~ a == b.
Proof.
  intros [-> | ->] Ha Hb.
  - destruct (Set_at_consecutive _ _ _ _ Ha Hb) as (i & Hi & Hj).
    apply (Set_init_nth_error_distinct l i (S i)); trivial; lia.
  - destruct (Set_at_consecutive _ _ _ _ Hb Ha) as (i & Hi & Hj).
    apply (Set_init_nth_error_distinct l (S i) i); trivial; lia.
Qed.

Lemma Set_at_raises {A : Type} (s : list A) (i : Z) (e : exn) :
  Set_at s i = Raise e -> e = IndexError.
Proof.
  unfold Set_at, Set_nth.
  repeat match goal with
         | |- context [if ?c then _ else _] => destruct c
         | |- context [match ?c with Some _ => _ | None => _ end] =>
             destruct c
         end; congruence.
Qed.

Lemma Set_at_never_divides {A : Type} (s : list A) (i : Z) :
  Set_at s i <> Raise ZeroDivisionError.
Proof. intros H. apply Set_at_raises in H. discriminate. Qed.

Lemma bind_never {A B : Type} (c : res A) (k : A -> res B) (e0 : exn) :
  c <> Raise e0 ->
  (forall a, c = Ok a -> k a <> Raise e0) ->
  bind c k <> Raise e0.
Proof.
  intros Hc Hk. destruct c as [a | e]; simpl.
  - now apply Hk.
  - intros E. apply Hc. congruence.
Qed.

(** The division of the CDS branches, for two nodes read at neighbouring
    positions of a set. *)
Lemma pydiv_neighbours (l : list Q) (p q : Z) (a b x : Q) :
  (q = p + 1 \/ p = q + 1)%Z ->
  Set_at (Set_init l) p = Ok a -> Set_at (Set_init l) q = Ok b ->
  pydiv x (a - b) <> Raise ZeroDivisionError.
Proof.
  intros Hpq Ha Hb.
  pose proof (Set_at_neighbours_differ l p q a b Hpq Ha Hb) as N.
  rewrite pydiv_ok by lra. discriminate.
Qed.

(** The node set handed to [_interpolate_channel] is a Pyomo [Set], whose
    members are pairwise different numbers, and the two nodes read by the
    CDS branch sit at neighbouring positions of it: the divisor [zd - zu]
    is never zero.  Unless the node-value accessor raises it, the routine
    never raises [ZeroDivisionError], whatever the face, the face set, the
    scheme and the flow direction. *)
Theorem interpolate_channel_no_zero_division
    (iz : Z) (ifaces : list Z) (l faces : list Q)
    (phi_func : Z -> res Q) (phi_inlet : Q)
    (method : CV_Interpolation) (oposite_flow : bool) :
  (forall i, phi_func i <> Raise ZeroDivisionError) ->
  _interpolate_channel iz ifaces (Set_init l) faces phi_func phi_inlet
    method oposite_flow
  <> Raise ZeroDivisionError.
Proof.
  intros Hphi. unfold _interpolate_channel.
  destruct oposite_flow; cbn [negb]; cbv iota beta zeta.
  - apply bind_never; [apply Set_at_never_divides | intros f0 Ef].
    rewrite andb_false_r.
    apply bind_never; [apply Set_at_never_divides | intros l0 El].
    destruct ((iz =? l0)%Z && true); [discriminate|].
    destruct method; [ | | discriminate].
    + apply bind_never; [apply Hphi | discriminate].
    + apply bind_never; [apply Set_at_never_divides | intros zu Hzu].
      apply bind_never.
      { apply bind_never; [apply Set_at_never_divides | discriminate]. }
      intros at_outlet _.
      apply bind_never; [apply Set_at_never_divides | intros zd Hzd].
      apply bind_never; [apply Set_at_never_divides | intros zf Hzf].
      apply bind_never.
      { eapply pydiv_neighbours; [|exact Hzd|exact Hzu].
        destruct at_outlet; lia. }
      intros lambf _.
      apply bind_never; [apply Hphi | intros pu _].
      apply bind_never; [apply Hphi | discriminate].
  - apply bind_never; [apply Set_at_never_divides | intros f0 Ef].
    destruct ((iz =? f0)%Z && true); [discriminate|].
    apply bind_never; [apply Set_at_never_divides | intros l0 El].
    rewrite andb_false_r.
    destruct method; [ | | discriminate].
    + apply bind_never; [apply Hphi | discriminate].
    + apply bind_never; [apply Set_at_never_divides | intros zu Hzu].
      apply bind_never.
      { apply bind_never; [apply Set_at_never_divides | discriminate]. }
      intros at_outlet _.
      apply bind_never; [apply Set_at_never_divides | intros zd Hzd].
      apply bind_never; [apply Set_at_never_divides | intros zf Hzf].
      apply bind_never.
      { eapply pydiv_neighbours; [|exact Hzd|exact Hzu].
        destruct at_outlet; lia. }
      intros lambf _.
      apply bind_never; [apply Hphi | intros pu _].
      apply bind_never; [apply Hphi | discriminate].
Qed.

Lemma interpolate_channel_no_zero_division_witness :
  (forall i, phi_of [10; 20] i <> Raise ZeroDivisionError)
  /\ znodes [0; 2; -1; 3] = [(0 + 2) / 2; (2 + -1) / 2]
  /\ _interpolate_channel 2 (izfaces [0; 2; -1; 3]) (znodes [0; 2; -1; 3])
       (zfaces [0; 2; -1; 3]) (phi_of [10; 20]) 0 CDS false
     <> Raise ZeroDivisionError.
Proof.
  assert (H : forall i, phi_of [10; 20] i <> Raise ZeroDivisionError).
  { intros i. unfold phi_of, Set_nth.
    destruct (1 <=? i)%Z; [|discriminate].
    destruct (nth_error [10; 20] (Z.to_nat (i - 1))); discriminate. }
  split; [exact H|]. split; [reflexivity|].
  exact (interpolate_channel_no_zero_division 2 (izfaces [0; 2; -1; 3])
           (midpoints (zfaces [0; 2; -1; 3])) (zfaces [0; 2; -1; 3])
           (phi_of [10; 20]) 0 CDS false H).
Defined.

Lemma Set_at_nil {A : Type} (i : Z) :
  Set_at ([] : list A) i = Raise IndexError.
Proof.
  unfold Set_at, Set_nth, Set_len. simpl.
  destruct (1 <=? i)%Z; [now destruct (Z.to_nat (i - 1))|].
  destruct (i <? 0)%Z; [|reflexivity].
  destruct (i + 0 <? 0)%Z; [reflexivity|].
  now destruct (Z.to_nat (i + 0)).
Qed.

(** An axis whose first face is also its last one has no node. *)
Lemma single_face_no_nodes (fs : list Q) (i : Z) :
  Set_first (izfaces fs) = Ok i -> Set_last (izfaces fs) = Ok i ->
  znodes fs = [].
Proof.
  unfold izfaces, znodes. intros Hf Hl.
  destruct (zfaces fs) as [|a [|b t]]; [discriminate | reflexivity |].
  rewrite index_range_first in Hf by (simpl; lia).
  rewrite index_range_last in Hl by (simpl; lia).
  simpl List.length in Hl. injection Hf as <-. injection Hl as Hl. lia.
Qed.

(** On the sets that [build] makes of a configured face list, whatever the
    list, the two reference nodes of [_interpolate_2D] are different
    members of the node set: unless the node-value accessor raises it, the
    routine never raises [ZeroDivisionError], in value mode and in
    derivative mode alike. *)
Theorem interpolate_2D_no_zero_division
    (ic : Z) (fs : list Q) (phi_func : Z -> res Q) (b0 b1 : bound)
    (derivative : bool) (method : CV_Interpolation)
    (direction : CV_Direction.t) :
  (forall i, phi_func i <> Raise ZeroDivisionError) ->
  _interpolate_2D ic (izfaces fs) (znodes fs) (zfaces fs) phi_func b0 b1
    derivative method direction
  <> Raise ZeroDivisionError.
Proof.
  intros Hphi. unfold _interpolate_2D.
  destruct method; cbn [CV_Interpolation_eqb negb]; try discriminate.
  cbv zeta.
  apply bind_never; [apply Set_at_never_divides | intros f0 Ef].
  assert (Close : forall icu icd,
            (icu = icd + 1 \/ icd = icu + 1
             \/ (Set_first (izfaces fs) = Ok ic
                 /\ Set_last (izfaces fs) = Ok ic))%Z ->
            (cu <- Set_at (znodes fs) icu ;;
             cd <- Set_at (znodes fs) icd ;;
             if negb derivative then
               cf <- Set_at (zfaces fs) ic ;;
               lambf <- pydiv (cd - cf) (cd - cu) ;;
               pu <- phi_func icu ;;
               pd <- phi_func icd ;;
               ret ((1 - lambf) * pu + lambf * pd)
             else
               pd <- phi_func icd ;;
               pu <- phi_func icu ;;
               pydiv (pd - pu) (cd - cu))
            <> Raise ZeroDivisionError).
  { intros icu icd Hw.
    apply bind_never; [apply Set_at_never_divides | intros cu Hcu].
    apply bind_never; [apply Set_at_never_divides | intros cd Hcd].
    assert (Hpq : (icu = icd + 1 \/ icd = icu + 1)%Z).
    { destruct Hw as [H | [H | [H1 H2]]]; [now left | now right |].
      rewrite (single_face_no_nodes fs ic H1 H2), Set_at_nil in Hcu.
      discriminate. }
    unfold znodes in Hcu, Hcd.
    destruct derivative; cbn [negb].
    - apply bind_never; [apply Hphi | intros pd _].
      apply bind_never; [apply Hphi | intros pu _].
      eapply pydiv_neighbours; [exact Hpq | exact Hcd | exact Hcu].
    - apply bind_never; [apply Set_at_never_divides | intros cf _].
      apply bind_never.
      { eapply pydiv_neighbours; [exact Hpq | exact Hcd | exact Hcu]. }
      intros lambf _.
      apply bind_never; [apply Hphi | intros pu _].
      apply bind_never; [apply Hphi | discriminate]. }
  destruct (ic =? f0)%Z eqn:B0.
  - apply Z.eqb_eq in B0. subst f0.
    destruct b0 as [v | s]; [discriminate|].
    apply bind_never; [apply Set_at_never_divides | intros l0 El].
    destruct (ic =? l0)%Z eqn:B1.
    + apply Z.eqb_eq in B1. subst l0.
      destruct b1 as [v | s1]; [discriminate|].
      apply Close. right. right. split; assumption.
    + destruct b1; apply Close; left; lia.
  - assert (Rest : (l0 <- Set_last (izfaces fs) ;;
                    match (ic =? l0)%Z, b1 with
                    | true, Literal v => ret v
                    | at_last, _ =>
                        let icd := if at_last then (ic - 2)%Z else ic in
                        cu <- Set_at (znodes fs) (ic - 1) ;;
                        cd <- Set_at (znodes fs) icd ;;
                        if negb derivative then
                          cf <- Set_at (zfaces fs) ic ;;
                          lambf <- pydiv (cd - cf) (cd - cu) ;;
                          pu <- phi_func (ic - 1)%Z ;;
                          pd <- phi_func icd ;;
                          ret ((1 - lambf) * pu + lambf * pd)
                        else
                          pd <- phi_func icd ;;
                          pu <- phi_func (ic - 1)%Z ;;
                          pydiv (pd - pu) (cd - cu)
                    end)
                   <> Raise ZeroDivisionError).
    { apply bind_never; [apply Set_at_never_divides | intros l0 El].
      destruct (ic =? l0)%Z.
      - destruct b1 as [v | s1]; [discriminate|].
        apply Close. left. lia.
      - destruct b1; apply Close; right; left; lia. }
    destruct b0; exact Rest.
Qed.

Lemma interpolate_2D_no_zero_division_witness :
  (forall i, phi_of [10; 20] i <> Raise ZeroDivisionError)
  /\ _interpolate_2D 2 (izfaces [0; 2; -1; 3]) (znodes [0; 2; -1; 3])
       (zfaces [0; 2; -1; 3]) (phi_of [10; 20])
       (Sentinel EXTRAPOLATE) (Sentinel EXTRAPOLATE) true CDS
       CV_Direction.X
     <> Raise ZeroDivisionError.
Proof.
  assert (H : forall i, phi_of [10; 20] i <> Raise ZeroDivisionError).
  { intros i. unfold phi_of, Set_nth.
    destruct (1 <=? i)%Z; [|discriminate].
    destruct (nth_error [10; 20] (Z.to_nat (i - 1))); discriminate. }
  split; [exact H|].
  exact (interpolate_2D_no_zero_division 2 [0; 2; -1; 3] (phi_of [10; 20])
           (Sentinel EXTRAPOLATE) (Sentinel EXTRAPOLATE) true CDS
           CV_Direction.X H).
Defined.
